(** * The emoji generation pipeline of build/emoji/emoji_gen.mjs

    A shallow embedding of the script that turns the emoji-datasource tables
    into [utils/emoji.json], the index maps of [utils/emoji.jsx], the table
    of [emoji_data.go] and the rules of [_emojisprite.scss], followed by the
    properties of the pipeline.

    Modelling conventions:
    - a dataset record is a [Record] with one field per property the script
      reads or writes and a bag [others] for the remaining properties;
      a property that may be absent is an [option];
    - the numeric properties of the dataset are integers, so a JS number is
      [NaN] or an integer ([JsNumber]); integers are exact where doubles
      are, on safe integers ([safeInteger]);
    - a JS [Map] is an association list in insertion order ([JsMap]);
      a plain object used as a lookup table is read on its own keys and
      then on the members it inherits from [Object.prototype];
    - strings are byte strings; [toLowerCase] is the ASCII one;
    - the script mutates its records in place; no record object occurs twice
      in [fullEmoji] (dataset records come from one JSON parse and every
      variation is a fresh copy), so each mutation is a map over the list. *)

From Stdlib Require Import ZArith Ascii String Sorted Permutation.
From stdpp Require Import list strings gmap pretty.

(** ** Strings *)

Module JsString.

Definition dquote : string := String (ascii_of_nat 34) "".
Definition LF : ascii := ascii_of_nat 10.
Definition CR : ascii := ascii_of_nat 13.
Definition newline : string := String LF "".

(** [s.split(sep)] for a one-character separator: never the empty list. *)
Fixpoint split (sep : ascii) (s : string) : list string :=
  match s with
  | EmptyString => [""]
  | String c s' =>
      if decide (c = sep) then "" :: split sep s'
      else match split sep s' with
           | piece :: rest => String c piece :: rest
           | [] => [String c ""]
           end
  end.

(** [l.join(sep)]. *)
Fixpoint join (sep : string) (l : list string) : string :=
  match l with
  | [] => ""
  | s :: rest =>
      match rest with
      | [] => s
      | _ :: _ => s +:+ sep +:+ join sep rest
      end
  end.

(** What [join] and a template literal make of a table lookup. [join]
    renders [undefined] as the empty string. *)
Definition joinItem (v : option string) : string := default "" v.

Definition lowerAscii (c : ascii) : ascii :=
  let n := nat_of_ascii c in
  if Nat.leb 65 n && Nat.leb n 90 then ascii_of_nat (n + 32) else c.

Fixpoint toLowerCase (s : string) : string :=
  match s with
  | EmptyString => EmptyString
  | String c s' => String (lowerAscii c) (toLowerCase s')
  end.

Fixpoint dropChars (n : nat) (s : string) : string :=
  match n, s with
  | O, _ => s
  | S n', String _ s' => dropChars n' s'
  | S _, EmptyString => EmptyString
  end.

(** [s.replace(pat, rep)] with a string pattern: the first occurrence only. *)
Fixpoint replace (pat rep s : string) : string :=
  if String.prefix pat s then rep +:+ dropChars (String.length pat) s
  else match s with
       | EmptyString => EmptyString
       | String c s' => String c (replace pat rep s')
       end.

Definition startsWithLF (s : string) : bool :=
  match s with
  | String c _ => bool_decide (c = LF)
  | EmptyString => false
  end.

(** [s.split(/\r?\n/)]: a line feed, with the carriage return just before
    it when there is one, separates two pieces. *)
Fixpoint splitLines (s : string) : list string :=
  match s with
  | EmptyString => [""]
  | String c s' =>
      if decide (c = LF) then "" :: splitLines s'
      else if bool_decide (c = CR) && startsWithLF s' then splitLines s'
      else match splitLines s' with
           | piece :: rest => String c piece :: rest
           | [] => [String c ""]
           end
  end.

End JsString.

Import JsString.

(** Whether a character occurs in a string. *)
Fixpoint hasChar (c : ascii) (s : string) : bool :=
  match s with
  | EmptyString => false
  | String a s' => bool_decide (a = c) || hasChar c s'
  end.

(** A line without carriage return or line feed. *)
Definition plainLine (s : string) : Prop :=
  hasChar LF s = false ∧ hasChar CR s = false.

(** ** Numbers *)

(** The numbers of the script: integers of the dataset, and [NaN] where a
    property is missing. A double holds an integer exactly, and prints its
    decimal digits, when the integer is safe; the products and texts below
    are those of the script on safe integers. *)
Inductive JsNumber : Type :=
  | NaN
  | Num (z : Z).

(** [Number.isSafeInteger]: below 2^53 in absolute value. *)
Definition safeInteger (z : Z) : Prop := (- 2 ^ 53 < z < 2 ^ 53)%Z.

(** [ToNumber] of a numeric property; [undefined] gives [NaN]. *)
Definition toNumber (v : option Z) : JsNumber :=
  match v with
  | Some z => Num z
  | None => NaN
  end.

Definition jsSub (a b : JsNumber) : JsNumber :=
  match a, b with
  | Num x, Num y => Num (x - y)
  | _, _ => NaN
  end.

Definition jsMul (a b : JsNumber) : JsNumber :=
  match a, b with
  | Num x, Num y => Num (x * y)
  | _, _ => NaN
  end.

(** [String(n)] for [NaN] and for a safe integer. *)
Definition numberToString (n : JsNumber) : string :=
  match n with
  | NaN => "NaN"
  | Num z => pretty z
  end.

(** ** Maps in insertion order *)

Section JsMap.
Context {K V : Type} `{EqDecision K}.

Definition JsMap : Type := list (K * V).

Fixpoint mapGet (m : JsMap) (key : K) : option V :=
  match m with
  | [] => None
  | (k, v) :: m' => if decide (k = key) then Some v else mapGet m' key
  end.

(** [m.set(key, v)]: an existing key keeps its place and takes the new
    value, a new key goes to the end. *)
Fixpoint mapSet (m : JsMap) (key : K) (v : V) : JsMap :=
  match m with
  | [] => [(key, v)]
  | (k, w) :: m' =>
      if decide (k = key) then (k, v) :: m' else (k, w) :: mapSet m' key v
  end.

(** [new Map(entries)]. *)
Definition newMap (entries : list (K * V)) : JsMap :=
  fold_left (λ m kv, mapSet m kv.1 kv.2) entries [].

(** [set.add(x)] on a [Set] kept in insertion order. *)
Definition setAdd (s : list K) (x : K) : list K :=
  if decide (x ∈ s) then s else s ++ [x].
End JsMap.

Arguments JsMap : clear implicits.

(** [addIndexToMap(emojiMap, key, ...indexes)]. *)
Definition addIndexToMap {K} `{EqDecision K}
    (emojiMap : JsMap K (list nat)) (key : K) (indexes : list nat)
    : JsMap K (list nat) :=
  let newList := default [] (mapGet emojiMap key) in
  mapSet emojiMap key (newList ++ indexes).

(** ** Data model *)

(** An entry of a [skin_variations] table, as the dataset has it. *)
Record Variation : Type := {
  var_unified : string;
  var_image : string;
  var_sheet_x : option Z;
  var_sheet_y : option Z;
  var_sort_order : option Z;
  var_others : list (string * string);
}.

(** An emoji record. [others] holds the properties the script never reads
    (their JSON text by name): platform code points, [added_in],
    [has_img_*], [subcategory], [source_index] and the like.
    [skin_variations] lists the table's entries in [Object.keys] order. *)
Record Emoji : Type := {
  name : string;
  unified : string;
  image : string;
  short_name : string;
  short_names : list string;
  category : string;
  sort_order : option Z;
  sheet_x : option Z;
  sheet_y : option Z;
  skin_variations : option (list (string * Variation));
  skins : option (list string);
  fileName : option string;
  others : list (string * string);
}.

Definition EMOJI_SIZE : Z := 64.
Definition EMOJI_SIZE_PADDED : Z := EMOJI_SIZE + 2.
Definition EMOJI_DEFAULT_SKIN : string := "default".

Definition skinCodes : list (string * string) := [
  ("1F3FB", "light_skin_tone");
  ("1F3FC", "medium_light_skin_tone");
  ("1F3FD", "medium_skin_tone");
  ("1F3FE", "medium_dark_skin_tone");
  ("1F3FF", "dark_skin_tone");
  ("default", "default")
].

Definition skinNames : list (string * string) := [
  ("1F3FB", "LIGHT SKIN TONE");
  ("1F3FC", "MEDIUM LIGHT SKIN TONE");
  ("1F3FD", "MEDIUM SKIN TONE");
  ("1F3FE", "MEDIUM DARK SKIN TONE");
  ("1F3FF", "DARK SKIN TONE")
].

(** What every plain object inherits from [Object.prototype]: the member
    names, each with the text that [String], [join] and a template literal
    give for the member (a native function prints its name, the
    [__proto__] accessor yields the prototype object). *)
Definition objectPrototype : list (string * string) := [
  ("constructor", "function Object() { [native code] }");
  ("__defineGetter__", "function __defineGetter__() { [native code] }");
  ("__defineSetter__", "function __defineSetter__() { [native code] }");
  ("hasOwnProperty", "function hasOwnProperty() { [native code] }");
  ("__lookupGetter__", "function __lookupGetter__() { [native code] }");
  ("__lookupSetter__", "function __lookupSetter__() { [native code] }");
  ("isPrototypeOf", "function isPrototypeOf() { [native code] }");
  ("propertyIsEnumerable", "function propertyIsEnumerable() { [native code] }");
  ("toString", "function toString() { [native code] }");
  ("valueOf", "function valueOf() { [native code] }");
  ("__proto__", "[object Object]");
  ("toLocaleString", "function toLocaleString() { [native code] }")
].

(** [key in table] for a plain object with own properties [table]: own
    keys and inherited members alike. *)
Definition inObject {V} (table : gmap string V) (key : string) : bool :=
  bool_decide (is_Some (table !! key)) || bool_decide (key ∈ objectPrototype.*1).

(** The text of [table[key]] for a plain object of strings: the own
    property, else the inherited member, else [undefined]. *)
Definition propertyText (table : list (string * string)) (key : string)
    : option string :=
  match mapGet table key with
  | Some text => Some text
  | None => mapGet objectPrototype key
  end.

Definition filename (emoji : Emoji) : string :=
  hd "" (split "." (image emoji)).

Definition convertCategory (category : string) : string :=
  replace " & " "-" (toLowerCase category).

(** ** Exclusion filter *)

(** [excludedEmoji.some((e) => element.short_names.includes(e))]. *)
Definition isExcluded (excludedEmoji : list string) (element : Emoji) : bool :=
  existsb (λ e, bool_decide (e ∈ short_names element)) excludedEmoji.

Definition filteredEmojiJson (excludedEmoji : list string) (jsonData : list Emoji)
    : list Emoji :=
  List.filter (λ element, negb (isExcluded excludedEmoji element)) jsonData.

(** The record shares a short name with the exclusion list. *)
Definition intersects (excluded : list string) (emoji : Emoji) : Prop :=
  ∃ s, s ∈ short_names emoji ∧ s ∈ excluded.

(** ** Skin variations *)

Definition skinSuffix (skinCode : string) : string :=
  join "_" ((λ code, joinItem (propertyText skinCodes code)) <$> split "-" skinCode).

Definition skinLabel (skinCode : string) : string :=
  join ", " ((λ code, joinItem (propertyText skinNames code)) <$> split "-" skinCode).

(** The body of the [map] callback of [genSkinVariations]: the copy of the
    table entry with its five properties overwritten. *)
Definition genSkinVariation (emoji : Emoji) (entry : string * Variation) : Emoji :=
  let skinCode := entry.1 in
  let skins := split "-" skinCode in
  let skinShortName := skinSuffix skinCode in
  let skinName := skinLabel skinCode in
  {| unified := var_unified entry.2;
     image := var_image entry.2;
     sheet_x := var_sheet_x entry.2;
     sheet_y := var_sheet_y entry.2;
     sort_order := var_sort_order entry.2;
     others := var_others entry.2;
     skin_variations := None;
     fileName := None;
     short_name := short_name emoji +:+ "_" +:+ skinShortName;
     short_names := (λ alias, alias +:+ "_" +:+ skinShortName) <$> short_names emoji;
     name := name emoji +:+ ": " +:+ skinName;
     category := category emoji;
     skins := Some skins |}.

Definition genSkinVariations (emoji : Emoji) : list Emoji :=
  match skin_variations emoji with
  | None => []
  | Some table => genSkinVariation emoji <$> table
  end.

(** [fullEmoji] after the skin tones are populated. *)
Definition populateSkinTones (filtered : list Emoji) : list Emoji :=
  filtered ++ flat_map genSkinVariations filtered.

(** ** Alias augmentation and the built-in entry *)

(** Property writes of the script, one definition per written property. *)
Definition withShortNames (emoji : Emoji) (aliases : list string) : Emoji :=
  {| name := name emoji; unified := unified emoji; image := image emoji;
     short_name := short_name emoji; short_names := aliases;
     category := category emoji; sort_order := sort_order emoji;
     sheet_x := sheet_x emoji; sheet_y := sheet_y emoji;
     skin_variations := skin_variations emoji; skins := skins emoji;
     fileName := fileName emoji; others := others emoji |}.

(** How a callback ends: it returns, or it throws a [TypeError]. *)
Inductive Completion (A : Type) : Type :=
  | Returned (a : A)
  | ThrewTypeError.

Arguments Returned {A} a.
Arguments ThrewTypeError {A}.

(** The callback that adds the old short names.
    [additionalShortnames] (additional_shortnames.json) is a plain object
    from short name to extra aliases. The script tests
    [short_name in additionalShortnames], which is also true of a name the
    object inherits, and pushes [...additionalShortnames[short_name]]:
    the extra aliases of an own key, while spreading an inherited member (a
    function, or the prototype object) throws before anything is pushed. *)
Definition addOldShortnames (additionalShortnames : gmap string (list string))
    (emoji : Emoji) : Completion Emoji :=
  if inObject additionalShortnames (short_name emoji) then
    match additionalShortnames !! short_name emoji with
    | Some extra => Returned (withShortNames emoji (short_names emoji ++ extra))
    | None => ThrewTypeError
    end
  else Returned emoji.

(** The record as the callback leaves it: with the extra aliases when it
    returns, untouched when it throws. *)
Definition addShortnames (additionalShortnames : gmap string (list string))
    (emoji : Emoji) : Emoji :=
  match addOldShortnames additionalShortnames emoji with
  | Returned augmented => augmented
  | ThrewTypeError => emoji
  end.

(** [fullEmoji.forEach] with that callback: the pass stops at the first
    record whose callback throws. *)
Fixpoint addOldShortnamesAll (additionalShortnames : gmap string (list string))
    (fullEmoji : list Emoji) : Completion (list Emoji) :=
  match fullEmoji with
  | [] => Returned []
  | emoji :: rest =>
      match addOldShortnames additionalShortnames emoji with
      | ThrewTypeError => ThrewTypeError
      | Returned augmented =>
          match addOldShortnamesAll additionalShortnames rest with
          | ThrewTypeError => ThrewTypeError
          | Returned others => Returned (augmented :: others)
          end
      end
  end.

Definition mattermostEmoji : Emoji :=
  {| name := "Mattermost";
     unified := "";
     image := "mattermost.png";
     short_name := "mattermost";
     short_names := ["mattermost"];
     category := "custom";
     sort_order := None; sheet_x := None; sheet_y := None;
     skin_variations := None; skins := None; fileName := None;
     others := [] |}.

(** [fullEmoji] just before the sort, in a run whose augmentation pass
    returns: every record as its callback leaves it, then the built-in
    entry. *)
Definition fullEmojiUnsorted (additionalShortnames : gmap string (list string))
    (excludedEmoji : list string) (jsonData : list Emoji) : list Emoji :=
  (addShortnames additionalShortnames
     <$> populateSkinTones (filteredEmojiJson excludedEmoji jsonData))
  ++ [mattermostEmoji].

(** ** Sorting *)

(** The comparator [(emojiA, emojiB) => emojiA.sort_order - emojiB.sort_order]. *)
Definition compareSortOrder (emojiA emojiB : Emoji) : JsNumber :=
  jsSub (toNumber (sort_order emojiA)) (toNumber (sort_order emojiB)).

(** How [Array.prototype.sort] reads the comparator's result
    (SortCompare): [NaN] counts as [+0]. *)
Definition sortCompare (v : JsNumber) : Z :=
  match v with
  | NaN => 0
  | Num z => z
  end.

Section JsSort.
Context {A : Type} (comparefn : A → A → JsNumber).

(** One step of insertion: [placed] is the sorted prefix, last element
    first; the new element moves left past every element that compares
    greater and stops at the first that does not. *)
Fixpoint insertBack (x : A) (placed : list A) : list A :=
  match placed with
  | [] => [x]
  | y :: rest =>
      if (0 <? sortCompare (comparefn y x))%Z then y :: insertBack x rest
      else x :: y :: rest
  end.

(** [array.sort(comparefn)]. ECMAScript asks for a stable sort and fixes the
    result when the comparator is consistent; otherwise the order is the
    engine's. The model is the stable insertion sort, elements inserted from
    left to right: it gives the engine's result when the comparator is
    consistent on the array and when the records with a key all stand
    before the records without one, as in [fullEmoji] built from a dataset
    whose records all carry a sort key. Statements about the order of the
    sorted list are made for such arrays; the others use only that the
    sorted list is a rearrangement. *)
Definition jsSort (l : list A) : list A :=
  reverse (fold_left (λ placed x, insertBack x placed) l []).

(** [a] may stand before [b]: the comparator does not put [b] first. *)
Definition notAfter (a b : A) : Prop := (sortCompare (comparefn a b) ≤ 0)%Z.
End JsSort.

Definition fullEmojiSorted (additionalShortnames : gmap string (list string))
    (excludedEmoji : list string) (jsonData : list Emoji) : list Emoji :=
  jsSort compareSortOrder
    (fullEmojiUnsorted additionalShortnames excludedEmoji jsonData).

(** The reading of "a missing sort key compares as 0": the key a record is
    sorted by, with 0 for a missing one. *)
Definition keyOrZero (emoji : Emoji) : Z := default 0%Z (sort_order emoji).

(** ** Index build *)

Record IndexState : Type := {
  emojiIndicesByAlias : list (string * nat);
  emojiIndicesByUnicode : list (string * nat);
  emojiIndicesByCategory : JsMap string (list nat);
  emojiIndicesByCategoryAndSkin : JsMap string (JsMap string (list nat));
  emojiIndicesByCategoryNoSkin : JsMap string (list nat);
  categoryNamesSet : list string;
  categoryDefaultTranslation : JsMap string string;
  emojiImagesByAlias : list string;
  emojiFilePositions : JsMap string string;
  skinset : list string;
}.

Definition emptyIndexState : IndexState :=
  {| emojiIndicesByAlias := []; emojiIndicesByUnicode := [];
     emojiIndicesByCategory := []; emojiIndicesByCategoryAndSkin := [];
     emojiIndicesByCategoryNoSkin := []; categoryNamesSet := [];
     categoryDefaultTranslation := []; emojiImagesByAlias := [];
     emojiFilePositions := []; skinset := [] |}.

(** The sprite offset
    [`-${emoji.sheet_x * EMOJI_SIZE_PADDED}px -${emoji.sheet_y * EMOJI_SIZE_PADDED}px;`]. *)
Definition spritePosition (emoji : Emoji) : string :=
  "-" +:+ numberToString (jsMul (toNumber (sheet_x emoji)) (Num EMOJI_SIZE_PADDED))
  +:+ "px -" +:+ numberToString (jsMul (toNumber (sheet_y emoji)) (Num EMOJI_SIZE_PADDED))
  +:+ "px;".

(** The entry [`"${alias}": "${file}"`] of the Go table. *)
Definition goEntry (file alias : string) : string :=
  dquote +:+ alias +:+ dquote +:+ ": " +:+ dquote +:+ file +:+ dquote.

(** [(emoji.skins && emoji.skins[0]) || EMOJI_DEFAULT_SKIN]: a missing array,
    a missing first element and an empty first element all give the default. *)
Definition skinOf (emoji : Emoji) : string :=
  match skins emoji with
  | Some (s :: _) => if decide (s = "") then EMOJI_DEFAULT_SKIN else s
  | _ => EMOJI_DEFAULT_SKIN
  end.

Definition hasSkin (emoji : Emoji) : bool :=
  bool_decide (is_Some (skins emoji)) || bool_decide (is_Some (skin_variations emoji)).

(** What one pass of the [forEach] callback writes into the index tables. *)
Definition indexEmoji (st : IndexState) (index : nat) (emoji : Emoji) : IndexState :=
  let safeCat := convertCategory (category emoji) in
  let file := filename emoji in
  {| emojiIndicesByUnicode :=
       if decide (unified emoji = "") then emojiIndicesByUnicode st
       else emojiIndicesByUnicode st ++ [(toLowerCase (unified emoji), index)];
     categoryDefaultTranslation :=
       mapSet (categoryDefaultTranslation st) safeCat (category emoji);
     emojiIndicesByCategory :=
       addIndexToMap (emojiIndicesByCategory st) safeCat [index];
     skinset :=
       if hasSkin emoji then setAdd (skinset st) (skinOf emoji) else skinset st;
     emojiIndicesByCategoryAndSkin :=
       if hasSkin emoji then
         let skin := skinOf emoji in
         let categoryBySkin :=
           default [] (mapGet (emojiIndicesByCategoryAndSkin st) skin) in
         mapSet (emojiIndicesByCategoryAndSkin st) skin
                (addIndexToMap categoryBySkin safeCat [index])
       else emojiIndicesByCategoryAndSkin st;
     emojiIndicesByCategoryNoSkin :=
       if hasSkin emoji then emojiIndicesByCategoryNoSkin st
       else addIndexToMap (emojiIndicesByCategoryNoSkin st) safeCat [index];
     categoryNamesSet := setAdd (categoryNamesSet st) safeCat;
     emojiIndicesByAlias :=
       emojiIndicesByAlias st ++ ((λ alias, (alias, index)) <$> short_names emoji);
     emojiFilePositions :=
       if decide (safeCat = "custom") then emojiFilePositions st
       else mapSet (emojiFilePositions st) file (spritePosition emoji);
     emojiImagesByAlias :=
       emojiImagesByAlias st ++ (goEntry file <$> short_names emoji) |}.

(** What the same pass writes into the record itself:
    [emoji.category = safeCat; emoji.fileName = emoji.image; emoji.image = file]. *)
Definition markEmoji (emoji : Emoji) : Emoji :=
  {| name := name emoji; unified := unified emoji;
     image := filename emoji;
     short_name := short_name emoji; short_names := short_names emoji;
     category := convertCategory (category emoji);
     sort_order := sort_order emoji;
     sheet_x := sheet_x emoji; sheet_y := sheet_y emoji;
     skin_variations := skin_variations emoji; skins := skins emoji;
     fileName := Some (image emoji); others := others emoji |}.

(** [fullEmoji.forEach((emoji, index) => ...)], from position [index] on. *)
Fixpoint forEachIndexed (index : nat) (st : IndexState) (l : list Emoji) : IndexState :=
  match l with
  | [] => st
  | emoji :: l' => forEachIndexed (S index) (indexEmoji st index emoji) l'
  end.

(** The last sprite offset written under a key, if any record writes one. *)
Fixpoint lastPosition (file : string) (l : list Emoji) : option string :=
  match l with
  | [] => None
  | emoji :: l' =>
      match lastPosition file l' with
      | Some pos => Some pos
      | None =>
          if decide (convertCategory (category emoji) = "custom") then None
          else if decide (filename emoji = file) then Some (spritePosition emoji)
          else None
      end
  end.

(** The positions, counted from [index], of the records that satisfy [P]. *)
Fixpoint positionsWhere (P : Emoji → bool) (index : nat) (l : list Emoji) : list nat :=
  match l with
  | [] => []
  | emoji :: l' =>
      if P emoji then index :: positionsWhere P (S index) l'
      else positionsWhere P (S index) l'
  end.

(** What a table of index lists holds under a key once more positions are
    pushed under it: nothing new when there is none to push. *)
Definition pushed (before : option (list nat)) (positions : list nat)
    : option (list nat) :=
  match positions with
  | [] => before
  | _ :: _ => Some (default [] before ++ positions)
  end.

(** [(outer.get(skin) || new Map()).get(cat)]. *)
Definition mapGet2 (outer : JsMap string (JsMap string (list nat)))
    (skin cat : string) : option (list nat) :=
  mapGet (default [] (mapGet outer skin)) cat.

(** The record is filed under the category. *)
Definition inCategory (cat : string) (emoji : Emoji) : bool :=
  bool_decide (convertCategory (category emoji) = cat).

(** The key lists that the index pass keeps in step. *)
Definition keysInStep (st : IndexState) : Prop :=
  categoryNamesSet st = (emojiIndicesByCategory st).*1
  ∧ (categoryDefaultTranslation st).*1 = (emojiIndicesByCategory st).*1
  ∧ skinset st = (emojiIndicesByCategoryAndSkin st).*1
  ∧ NoDup ((emojiIndicesByCategory st).*1)
  ∧ NoDup ((emojiIndicesByCategoryAndSkin st).*1).

(** The maps of the index have distinct keys, the inner maps of the skin
    index too. *)
Definition distinctKeys (st : IndexState) : Prop :=
  NoDup ((emojiIndicesByCategory st).*1)
  ∧ NoDup ((emojiIndicesByCategoryNoSkin st).*1)
  ∧ NoDup ((emojiIndicesByCategoryAndSkin st).*1)
  ∧ Forall (λ kv, NoDup (kv.2.*1)) (emojiIndicesByCategoryAndSkin st).

(** ** Trimming *)

Definition trimmedProperties : list string := [
  "non_qualified"; "docomo"; "au"; "softbank"; "google"; "sheet_x"; "sheet_y";
  "added_in"; "has_img_apple"; "has_img_google"; "has_img_twitter";
  "has_img_facebook"; "source_index"; "sort_order"; "subcategory"
].

Definition trimPropertiesFromEmoji (emoji : Emoji) : Emoji :=
  {| name := name emoji; unified := unified emoji; image := image emoji;
     short_name := short_name emoji; short_names := short_names emoji;
     category := category emoji;
     sort_order := None; sheet_x := None; sheet_y := None;
     skin_variations := skin_variations emoji; skins := skins emoji;
     fileName := fileName emoji;
     others := List.filter (λ kv, negb (bool_decide (kv.1 ∈ trimmedProperties)))
                           (others emoji) |}.

(** ** Serialized artifacts *)

(** [jsonCategories] (categories.json) is an object from category name to
    its subcategories; only [Object.keys] of it is used. *)
Definition categoryList (jsonCategories : list (string * list string)) : list string :=
  convertCategory
    <$> List.filter (λ item, negb (bool_decide (item = "Component")))
                    (jsonCategories.*1).

Definition categoryNames (jsonCategories : list (string * list string)) : list string :=
  "recent" :: categoryList jsonCategories ++ ["custom"].

Definition sheetFile : string := "images/emoji-sheets/apple-sheet.png".

Definition emojiGoHeader : string :=
  "// Copyright (c) 2015-present Mattermost, Inc. All Rights Reserved." +:+ newline
  +:+ "// See LICENSE.txt for license information." +:+ newline
  +:+ "// This file is automatically generated via `make emojis`. Do not modify it manually."
  +:+ newline +:+ newline
  +:+ "package model" +:+ newline +:+ newline.

Definition emojiGo (imagesByAlias : list string) : string :=
  emojiGoHeader
  +:+ "var SystemEmojis = map[string]string{" +:+ join ", " imagesByAlias +:+ "}"
  +:+ newline.

Definition cssCats (names : list string) : list string :=
  (λ cat, ".emoji-category-" +:+ cat +:+ " { background-image: url('"
          +:+ sheetFile +:+ "'); }")
    <$> List.filter (λ cat, negb (bool_decide (cat = "custom"))) names.

Definition cssEmojis (positions : JsMap string string) : list string :=
  (λ kv, ".emoji-" +:+ kv.1 +:+ " { background-position: " +:+ kv.2 +:+ " }")
    <$> positions.

(** What the four writes receive: [emoji_json] is the array handed to
    [JSON.stringify], [emoji_jsx_*] are the values of the script that are
    spliced into the module text, [emoji_data_go] is the text of the Go
    file. [emoji_jsx_categoryDefaultTranslation] is the script's
    [categoryDefaultTranslation] map after its three last [set] calls; the
    module text wraps its entries in one more pair of brackets, so the
    [CategoryMessage] that the module builds is not this map. *)
Record Artifacts : Type := {
  emoji_json : list Emoji;
  emoji_jsx_index : IndexState;
  emoji_jsx_categoryNames : list string;
  emoji_jsx_categoryDefaultTranslation : JsMap string string;
  emoji_data_go : string;
  emojisprite_cats : list string;
  emojisprite_emojis : list string;
}.

(** Everything from the filter to the serializers, for a given exclusion
    list. *)
Definition generate (additionalShortnames : gmap string (list string))
    (jsonCategories : list (string * list string))
    (excludedEmoji : list string) (jsonData : list Emoji) : Artifacts :=
  let sorted := fullEmojiSorted additionalShortnames excludedEmoji jsonData in
  let st := forEachIndexed 0 emptyIndexState sorted in
  let fullEmoji := markEmoji <$> sorted in
  let trimmedDownEmojis := trimPropertiesFromEmoji <$> fullEmoji in
  let names := categoryNames jsonCategories in
  {| emoji_json := trimmedDownEmojis;
     emoji_jsx_index := st;
     emoji_jsx_categoryNames := names;
     emoji_jsx_categoryDefaultTranslation :=
       mapSet (mapSet (mapSet (categoryDefaultTranslation st)
                              "recent" "Recently Used")
                      "searchResults" "Search Results")
              "custom" "Custom";
     emoji_data_go := emojiGo (emojiImagesByAlias st);
     emojisprite_cats := cssCats names;
     emojisprite_emojis := cssEmojis (emojiFilePositions st) |}.

(** ** The run *)

(** What a run is given. [readFileSync p] is the text that
    [readFileSync(path.normalize(p), 'utf-8')] returns, [None] when it
    throws (missing or unreadable file). *)
Record Env : Type := {
  argsExcludedEmojiFile : option string;
  readFileSync : string → option string;
  SERVER_DIR : option string;
  jsonData : list Emoji;
  jsonCategories : list (string * list string);
  additionalShortnames : gmap string (list string);
}.

Inductive RunResult : Type :=
  | Thrown
  | Completed (artifacts : Artifacts).

(** [excludedEmoji]: the lines of the file when a path is given (a truthy
    option value), the empty array otherwise; [None] when the read throws. *)
Definition excludedEmoji (env : Env) : option (list string) :=
  match argsExcludedEmojiFile env with
  | Some p =>
      if decide (p = "") then Some []
      else splitLines <$> readFileSync env p
  | None => Some []
  end.

(** The script from the exclusion list on. The exception of [readFileSync]
    is not caught: nothing after it runs. [Completed] is the run whose
    augmentation pass returns ([addOldShortnamesAll]). *)
Definition main (env : Env) : RunResult :=
  match excludedEmoji env with
  | None => Thrown
  | Some excluded =>
      Completed (generate (additionalShortnames env) (jsonCategories env)
                          excluded (jsonData env))
  end.

(** ** The category lookup of the generated module *)

(** [genSkinnedCategories(skin)] of the text of [emoji.jsx], over the three
    values the module declares: for each category name, the indices without
    skin followed by the indices of the given skin. *)
Definition genSkinnedCategories (CategoryNames : list string)
    (EmojiIndicesByCategoryAndSkin : JsMap string (JsMap string (list nat)))
    (EmojiIndicesByCategoryNoSkin : JsMap string (list nat))
    (skin : string) : JsMap string (list nat) :=
  fold_left
    (λ result cat,
       let skinCat := default [] (mapGet2 EmojiIndicesByCategoryAndSkin skin cat) in
       let indices := default [] (mapGet EmojiIndicesByCategoryNoSkin cat) ++ skinCat in
       mapSet result cat indices)
    CategoryNames [].

(** ** A small dataset for examples *)

Definition sampleVariation (u img : string) (x y : Z) : Variation :=
  {| var_unified := u; var_image := img;
     var_sheet_x := Some x; var_sheet_y := Some y;
     var_sort_order := None;
     var_others := [("added_in", "2.0"); ("has_img_apple", "true")] |}.

Definition sampleEmoji (nm sn : string) (aliases : list string) (cat u img : string)
    (order x y : Z) (variations : option (list (string * Variation))) : Emoji :=
  {| name := nm; unified := u; image := img; short_name := sn;
     short_names := aliases; category := cat;
     sort_order := Some order; sheet_x := Some x; sheet_y := Some y;
     skin_variations := variations; skins := None; fileName := None;
     others := [("non_qualified", "null"); ("subcategory", "face-smiling");
                ("obsoletes", "null")] |}.

Definition grinning : Emoji :=
  sampleEmoji "GRINNING FACE" "grinning" ["grinning"] "Smileys & Emotion"
              "1F600" "1f600.png" 2 3 0 None.

Definition thumbsup : Emoji :=
  sampleEmoji "THUMBS UP SIGN" "+1" ["+1"; "thumbsup"] "People & Body"
              "1F44D" "1f44d.png" 1 1 2
              (Some [("1F3FB", sampleVariation "1F44D-1F3FB" "1f44d-1f3fb.png" 1 3);
                     ("1F3FF", sampleVariation "1F44D-1F3FF" "1f44d-1f3ff.png" 1 4)]).

Definition sampleData : list Emoji := [grinning; thumbsup].

Definition sampleCategories : list (string * list string) :=
  [("Smileys & Emotion", ["face-smiling"]); ("People & Body", ["hand-fingers-closed"]);
   ("Component", ["skin-tone"]); ("Flags", ["flag"])].

Definition sampleShortnames : gmap string (list string) :=
  {[ "grinning" := ["grinning_face"]; "+1_light_skin_tone" := ["thumbsup_pale"] ]}.

Definition thumbsupLight : Emoji :=
  genSkinVariation thumbsup ("1F3FB", sampleVariation "1F44D-1F3FB" "1f44d-1f3fb.png" 1 3).

Definition sampleEnv (path : option string) (files : string → option string)
    (serverDir : option string) : Env :=
  {| argsExcludedEmojiFile := path; readFileSync := files;
     SERVER_DIR := serverDir; jsonData := sampleData;
     jsonCategories := sampleCategories;
     additionalShortnames := sampleShortnames |}.

(** A dataset record whose short name is a member every object inherits. *)
Definition constructorEmoji : Emoji :=
  sampleEmoji "BUILDING CONSTRUCTION" "constructor" ["constructor"]
              "Travel & Places" "1F3D7" "1f3d7.png" 3 5 5 None.

(** A dataset record filed by the dataset under a category named Custom. *)
Definition customCategoryEmoji : Emoji :=
  sampleEmoji "PARTY POPPER" "tada" ["tada"] "Custom" "1F389" "1f389.png" 1 2 7 None.

(** * Properties *)

(** ** The augmentation callback *)

Lemma addShortnames_eq additional emoji :
  addShortnames additional emoji
  = match additional !! short_name emoji with
    | Some extra => withShortNames emoji (short_names emoji ++ extra)
    | None => emoji
    end.
Proof.
  unfold addShortnames, addOldShortnames.
  destruct (inObject additional (short_name emoji)) eqn:Hin;
    destruct (additional !! short_name emoji) as [extra|] eqn:Hget; try done.
  unfold inObject in Hin. rewrite Hget in Hin.
  apply orb_false_elim in Hin as [Hin%bool_decide_eq_false _].
  exfalso. apply Hin. by eexists.
Qed.

(** ** Strings *)

Lemma split_not_nil sep s : split sep s ≠ [].
Proof.
  destruct s as [|c s]; simpl; [done|].
  destruct (decide (c = sep)); [done|].
  by destruct (split sep s).
Qed.


Lemma split_no_sep sep s : hasChar sep s = false → split sep s = [s].
Proof.
  induction s as [|c s IH]; simpl; [done|].
  intros [Hc Hs]%orb_false_elim.
  apply bool_decide_eq_false in Hc.
  rewrite decide_False by done. by rewrite IH.
Qed.

(** ** Maps in insertion order *)

Section JsMapFacts.
Context {K V : Type} `{EqDecision K}.
Implicit Types (m : JsMap K V) (k : K) (v : V).

Lemma mapGet_mapSet m k v k' :
  mapGet (mapSet m k v) k' = if decide (k = k') then Some v else mapGet m k'.
Proof.
  induction m as [|[k0 v0] m IH]; simpl.
  - by destruct (decide (k = k')).
  - destruct (decide (k0 = k)) as [->|Hne]; simpl.
    + by destruct (decide (k = k')).
    + rewrite IH. destruct (decide (k0 = k')) as [->|]; [|done].
      by rewrite decide_False.
Qed.


Lemma mapGet_Some_elem m k v : mapGet m k = Some v → (k, v) ∈ m.
Proof.
  induction m as [|[k0 v0] m IH]; simpl; [done|].
  destruct (decide (k0 = k)) as [->|Hne].
  - intros [= ->]. left.
  - intros ?. right. by apply IH.
Qed.

Lemma mapGet_is_Some m k : is_Some (mapGet m k) ↔ k ∈ m.*1.
Proof.
  induction m as [|[k0 v0] m IH]; simpl.
  - split; [by intros [? ?] | by intros ?%elem_of_nil].
  - destruct (decide (k0 = k)) as [->|Hne].
    + split; [intros _; left | by eauto].
    + rewrite IH, elem_of_cons. simpl. split; [by right|].
      by intros [?|?].
Qed.

(** A [Map] built from entries keeps, for each key, one of its entries. *)
Lemma newMap_lookup_entry (entries : list (K * V)) k v :
  mapGet (newMap entries) k = Some v → (k, v) ∈ entries.
Proof.
  unfold newMap.
  enough (∀ acc, mapGet (fold_left (λ m kv, mapSet m kv.1 kv.2) entries acc) k = Some v
                 → (k, v) ∈ entries ∨ mapGet acc k = Some v) as Hgen.
  { intros Hget. by destruct (Hgen [] Hget). }
  induction entries as [|[k0 v0] entries IH]; simpl; intros acc Hget; [by right|].
  destruct (IH _ Hget) as [Hin | Hacc]; [left; by right|].
  rewrite mapGet_mapSet in Hacc.
  destruct (decide (k0 = k)) as [->|]; [|by right].
  injection Hacc as ->. left. left.
Qed.

Lemma newMap_has_key (entries : list (K * V)) k v :
  (k, v) ∈ entries → is_Some (mapGet (newMap entries) k).
Proof.
  unfold newMap.
  enough (∀ acc, (k, v) ∈ entries ∨ is_Some (mapGet acc k)
                 → is_Some (mapGet (fold_left (λ m kv, mapSet m kv.1 kv.2) entries acc) k))
    as Hgen.
  { intros Hin. apply Hgen. by left. }
  induction entries as [|[k0 v0] entries IH]; simpl; intros acc Hor.
  - destruct Hor as [?%elem_of_nil | ?]; done.
  - apply IH. rewrite mapGet_mapSet.
    destruct Hor as [[[= -> ->] | Hin]%elem_of_cons | Hsome].
    + right. rewrite decide_True by done. eauto.
    + by left.
    + right. destruct (decide (k0 = k)); eauto.
Qed.
End JsMapFacts.

(** ** The sort *)

Section JsSortFacts.
Context {A : Type} (comparefn : A → A → JsNumber).

Hypothesis comparefn_antisym :
  ∀ a b, sortCompare (comparefn a b) = (- sortCompare (comparefn b a))%Z.

Lemma insertBack_perm x placed : insertBack comparefn x placed ≡ₚ x :: placed.
Proof.
  induction placed as [|y rest IH]; simpl; [done|].
  destruct (0 <? _)%Z; [|done].
  rewrite IH. apply Permutation_swap.
Qed.

Lemma insertBack_fold_perm l acc :
  fold_left (λ placed x, insertBack comparefn x placed) l acc ≡ₚ l ++ acc.
Proof.
  revert acc. induction l as [|x l IH]; intros acc; simpl; [done|].
  rewrite IH, insertBack_perm. by rewrite Permutation_middle.
Qed.

Lemma jsSort_perm l : jsSort comparefn l ≡ₚ l.
Proof.
  unfold jsSort. rewrite reverse_Permutation, insertBack_fold_perm.
  by rewrite app_nil_r.
Qed.

Lemma jsSort_elem_of l x : x ∈ jsSort comparefn l ↔ x ∈ l.
Proof.
  rewrite !list_elem_of_In.
  split; apply Permutation_in; [|symmetry]; apply jsSort_perm.
Qed.

Lemma jsSort_snoc l x :
  jsSort comparefn (l ++ [x])
  = reverse (insertBack comparefn x (reverse (jsSort comparefn l))).
Proof.
  unfold jsSort. by rewrite fold_left_app, reverse_involutive.
Qed.

(** An element that ties with everything placed so far stays where it is. *)
Lemma insertBack_tie x placed :
  (∀ y, y ∈ placed → sortCompare (comparefn y x) = 0%Z) →
  insertBack comparefn x placed = x :: placed.
Proof.
  destruct placed as [|y rest]; simpl; [done|].
  intros Htie. rewrite (Htie y) by left. done.
Qed.

Lemma jsSort_snoc_tie l x :
  (∀ y, y ∈ l → sortCompare (comparefn y x) = 0%Z) →
  jsSort comparefn (l ++ [x]) = jsSort comparefn l ++ [x].
Proof.
  intros Htie. rewrite jsSort_snoc, insertBack_tie.
  - by rewrite reverse_cons, reverse_involutive.
  - intros y Hy. apply Htie.
    apply (proj1 (elem_of_reverse _ _)) in Hy. by apply (proj1 (jsSort_elem_of l y)).
Qed.

Lemma jsSort_app_ties l us :
  (∀ y u, u ∈ us → sortCompare (comparefn y u) = 0%Z) →
  jsSort comparefn (l ++ us) = jsSort comparefn l ++ us.
Proof.
  revert l. induction us as [|u us IH]; intros l Htie.
  - by rewrite !app_nil_r.
  - rewrite (cons_middle u l us), app_assoc, IH.
    + rewrite jsSort_snoc_tie, <- app_assoc; [done|].
      intros y _. apply Htie. left.
    + intros y u' Hu'. apply Htie. by right.
Qed.

(** Insertion keeps neighbours in comparator order. *)
Lemma insertBack_Sorted x placed :
  Sorted (flip (notAfter comparefn)) placed →
  Sorted (flip (notAfter comparefn)) (insertBack comparefn x placed).
Proof.
  induction placed as [|y rest IH]; simpl; intros Hs.
  - repeat constructor.
  - destruct (0 <? sortCompare (comparefn y x))%Z eqn:Hcmp.
    + apply Sorted_inv in Hs as [Hrest Hhd].
      constructor; [by apply IH|].
      destruct rest as [|z rest']; simpl.
      * constructor. unfold flip, notAfter.
        rewrite comparefn_antisym. apply Z.ltb_lt in Hcmp. lia.
      * destruct (0 <? sortCompare (comparefn z x))%Z.
        -- constructor. by apply HdRel_inv in Hhd.
        -- constructor. unfold flip, notAfter.
           rewrite comparefn_antisym. apply Z.ltb_lt in Hcmp. lia.
    + constructor; [done|]. constructor.
      unfold flip, notAfter. apply Z.ltb_ge in Hcmp. lia.
Qed.

Lemma Sorted_snoc (R : A → A → Prop) l x :
  Sorted R l → (∀ y, last l = Some y → R y x) → Sorted R (l ++ [x]).
Proof.
  induction l as [|a l IH]; simpl; intros Hs Hlast.
  - repeat constructor.
  - apply Sorted_inv in Hs as [Hl Hhd].
    constructor.
    + apply IH; [done|]. intros y Hy. apply Hlast.
      destruct l; [done|]. done.
    + destruct l as [|b l]; simpl.
      * constructor. by apply Hlast.
      * constructor. by apply HdRel_inv in Hhd.
Qed.

Lemma Sorted_flip_reverse (R : A → A → Prop) l :
  Sorted (flip R) l → Sorted R (reverse l).
Proof.
  induction l as [|a l IH]; intros Hs; [constructor|].
  apply Sorted_inv in Hs as [Hl Hhd]. rewrite reverse_cons.
  apply Sorted_snoc; [by apply IH|].
  intros y Hy. rewrite last_reverse in Hy.
  destruct l as [|b l]; [done|]. injection Hy as <-.
  by apply HdRel_inv in Hhd.
Qed.

(** Neighbours in the sorted array are in comparator order, whatever the
    comparator makes of elements further apart. *)
Lemma jsSort_Sorted l : Sorted (notAfter comparefn) (jsSort comparefn l).
Proof.
  unfold jsSort. apply Sorted_flip_reverse.
  enough (∀ acc, Sorted (flip (notAfter comparefn)) acc →
                 Sorted (flip (notAfter comparefn))
                        (fold_left (λ placed x, insertBack comparefn x placed) l acc))
    as Hgen by (apply Hgen; constructor).
  induction l as [|x l IH]; simpl; intros acc Hacc; [done|].
  apply IH. by apply insertBack_Sorted.
Qed.
End JsSortFacts.

(** ** The index build, table by table *)

Lemma forEachIndexed_app index st l1 l2 :
  forEachIndexed index st (l1 ++ l2)
  = forEachIndexed (index + length l1) (forEachIndexed index st l1) l2.
Proof.
  revert index st. induction l1 as [|e l1 IH]; intros index st; simpl.
  - by rewrite Nat.add_0_r.
  - rewrite IH. f_equal. lia.
Qed.

(** The alias pairs are, record by record, each alias with the record's
    position. *)
Lemma forEachIndexed_byAlias index st l :
  emojiIndicesByAlias (forEachIndexed index st l)
  = emojiIndicesByAlias st
    ++ concat (imap (λ j emoji, (λ alias, (alias, index + j)) <$> short_names emoji) l).
Proof.
  revert index st. induction l as [|e l IH]; intros index st; simpl.
  - by rewrite app_nil_r.
  - rewrite IH. simpl. rewrite <- app_assoc, Nat.add_0_r. do 2 f_equal.
    f_equal. apply imap_ext. intros j x _. simpl.
    by replace (index + S j) with (S (index + j)) by lia.
Qed.


Lemma forEachIndexed_positions index st l file :
  mapGet (emojiFilePositions (forEachIndexed index st l)) file
  = match lastPosition file l with
    | Some pos => Some pos
    | None => mapGet (emojiFilePositions st) file
    end.
Proof.
  revert index st. induction l as [|e l IH]; intros index st; simpl; [done|].
  rewrite IH. destruct (lastPosition file l) as [pos|]; [done|]. simpl.
  destruct (decide (convertCategory (category e) = "custom")); [done|].
  rewrite mapGet_mapSet. by destruct (decide (filename e = file)).
Qed.

Lemma lastPosition_None file l :
  lastPosition file l = None ↔
  ∀ emoji, emoji ∈ l → convertCategory (category emoji) ≠ "custom" →
           filename emoji ≠ file.
Proof.
  induction l as [|e l IH]; simpl.
  - split; [by intros _ ? ?%elem_of_nil | done].
  - destruct (lastPosition file l) as [pos|].
    + split; [done|]. intros Hall. exfalso.
      assert (Some pos = None) as Habs; [|done].
      apply IH. intros emoji Hin. apply Hall. by right.
    + destruct (decide (convertCategory (category e) = "custom")) as [Hc|Hc].
      * split; [|done]. intros _ emoji [->|Hin]%elem_of_cons; [done|].
        by apply IH.
      * destruct (decide (filename e = file)) as [Hf|Hf].
        -- split; [done|]. intros Hall. exfalso. eapply Hall; [left|done..].
        -- split; [|done]. intros _ emoji [->|Hin]%elem_of_cons; [done|].
           by apply IH.
Qed.

(** A record's offset is the one kept under its key when no later record
    writes the same key. *)
Lemma lastPosition_at l i emoji :
  l !! i = Some emoji →
  convertCategory (category emoji) ≠ "custom" →
  (∀ j other, i < j → l !! j = Some other →
              convertCategory (category other) ≠ "custom" →
              filename other ≠ filename emoji) →
  lastPosition (filename emoji) l = Some (spritePosition emoji).
Proof.
  revert i. induction l as [|e l IH]; intros i Hi Hcat Hlater; [done|].
  destruct i as [|i]; simpl in *.
  - injection Hi as ->.
    assert (lastPosition (filename emoji) l = None) as ->.
    { apply lastPosition_None. intros other [j Hj]%list_elem_of_lookup_1 Hc.
      apply (Hlater (S j)); [lia|done..]. }
    rewrite decide_False by done. by rewrite decide_True.
  - erewrite IH; [done..|].
    intros j other Hlt Hj. apply (Hlater (S j)); [lia|done].
Qed.


Lemma elem_of_concat {A} (x : A) (ls : list (list A)) :
  x ∈ concat ls ↔ ∃ l, l ∈ ls ∧ x ∈ l.
Proof.
  rewrite list_elem_of_In, in_concat.
  split; intros (l & H1 & H2); exists l.
  - by rewrite !list_elem_of_In.
  - by rewrite <- !list_elem_of_In.
Qed.

(** ** Exclusion *)

Lemma isExcluded_spec excluded emoji :
  isExcluded excluded emoji = true ↔ intersects excluded emoji.
Proof.
  unfold isExcluded, intersects. rewrite existsb_exists. split.
  - intros (s & Hin & Hs). exists s.
    apply bool_decide_eq_true in Hs. split; [done | by apply list_elem_of_In].
  - intros (s & Hs & Hin). exists s.
    split; [by apply list_elem_of_In | by apply bool_decide_eq_true].
Qed.

Lemma elem_of_filteredEmojiJson excluded data emoji :
  emoji ∈ filteredEmojiJson excluded data
  ↔ emoji ∈ data ∧ ¬ intersects excluded emoji.
Proof.
  unfold filteredEmojiJson.
  rewrite list_elem_of_In, filter_In, <- list_elem_of_In, <- isExcluded_spec.
  rewrite negb_true_iff. destruct (isExcluded excluded emoji); intuition congruence.
Qed.

Lemma filteredEmojiJson_nil data : filteredEmojiJson [] data = data.
Proof.
  unfold filteredEmojiJson. induction data as [|e data IH]; simpl; [done|].
  f_equal. exact IH.
Qed.

Lemma filteredEmojiJson_idemp excluded data :
  filteredEmojiJson excluded (filteredEmojiJson excluded data)
  = filteredEmojiJson excluded data.
Proof.
  unfold filteredEmojiJson. induction data as [|e data IH]; simpl; [done|].
  destruct (negb (isExcluded excluded e)) eqn:He; simpl; [|done].
  by rewrite He, IH.
Qed.

Lemma elem_of_populateSkinTones filtered r :
  r ∈ populateSkinTones filtered
  ↔ ∃ b, b ∈ filtered ∧ (r = b ∨ r ∈ genSkinVariations b).
Proof.
  unfold populateSkinTones. rewrite elem_of_app.
  rewrite (list_elem_of_In (flat_map _ _) r), in_flat_map. split.
  - intros [Hr | (b & Hb & Hr)].
    + exists r. split; [done | by left].
    + exists b. rewrite <- !list_elem_of_In in *. split; [done | by right].
  - intros (b & Hb & [-> | Hr]); [by left|].
    right. exists b. by rewrite <- !list_elem_of_In.
Qed.

(** Where a record of the unsorted list comes from. *)
Lemma elem_of_fullEmojiUnsorted additional excluded data u :
  u ∈ fullEmojiUnsorted additional excluded data ↔
  u = mattermostEmoji
  ∨ ∃ b r, b ∈ data ∧ ¬ intersects excluded b
           ∧ (r = b ∨ r ∈ genSkinVariations b)
           ∧ u = addShortnames additional r.
Proof.
  unfold fullEmojiUnsorted.
  rewrite elem_of_app, list_elem_of_singleton, list_elem_of_fmap. split.
  - intros [(r & -> & Hr) | ->]; [|by left].
    apply elem_of_populateSkinTones in Hr as (b & Hb & Hr).
    apply elem_of_filteredEmojiJson in Hb as [Hb Hno].
    right. by exists b, r.
  - intros [-> | (b & r & Hb & Hno & Hr & ->)]; [by right|].
    left. exists r. split; [done|].
    apply elem_of_populateSkinTones. exists b. split; [|done].
    by apply elem_of_filteredEmojiJson.
Qed.

Lemma compareSortOrder_antisym a b :
  sortCompare (compareSortOrder a b) = (- sortCompare (compareSortOrder b a))%Z.
Proof.
  unfold compareSortOrder.
  destruct (sort_order a), (sort_order b); simpl; lia.
Qed.

Lemma elem_of_fullEmojiSorted additional excluded data u :
  u ∈ fullEmojiSorted additional excluded data
  ↔ u ∈ fullEmojiUnsorted additional excluded data.
Proof. apply jsSort_elem_of. Qed.

(** C1. Exclusion removes whole records before anything else runs: a dataset
    record that shares a short name with the exclusion list is not in the
    filtered dataset; every record of the trimmed JSON array is the built-in
    entry or comes from a dataset record that shares no short name with the
    list (the record itself or one of its skin variations); and all
    artifacts (JSON array, index maps, Go table, stylesheet rules) are the
    ones of a run without exclusion list on the dataset without those
    records. *)
Theorem excluded_records_removed
    (additional : gmap string (list string)) (cats : list (string * list string))
    (excluded : list string) (data : list Emoji) :
  let kept := filteredEmojiJson excluded data in
  let out := generate additional cats excluded data in
  (∀ e, e ∈ data → intersects excluded e → e ∉ kept)
  ∧ (∀ t, t ∈ emoji_json out →
       t = trimPropertiesFromEmoji (markEmoji mattermostEmoji)
       ∨ ∃ b r, b ∈ data ∧ ¬ intersects excluded b
                ∧ (r = b ∨ r ∈ genSkinVariations b)
                ∧ t = trimPropertiesFromEmoji (markEmoji (addShortnames additional r)))
  ∧ out = generate additional cats [] kept.
Proof.
  intros kept out. split; [|split].
  - intros e _ Hint [_ Hno]%elem_of_filteredEmojiJson. done.
  - intros t Ht. unfold out, generate in Ht. simpl in Ht.
    apply list_elem_of_fmap in Ht as (m & -> & Hm).
    apply list_elem_of_fmap in Hm as (u & -> & Hu).
    apply elem_of_fullEmojiSorted, elem_of_fullEmojiUnsorted in Hu
      as [-> | (b & r & Hb & Hno & Hr & ->)]; [by left|].
    right. by exists b, r.
  - unfold out, kept, generate, fullEmojiSorted, fullEmojiUnsorted.
    by rewrite filteredEmojiJson_nil.
Qed.

(** An alias in the exclusion list can still reach the output through
    augmentation: the filter reads the short names of the dataset, before
    aliases are added. *)
Example excluded_alias_added_later :
  let out := generate {[ "grinning" := ["smile"] ]} [] ["smile"] [grinning] in
  short_names <$> emoji_json out = [["grinning"; "smile"]; ["mattermost"]].
Proof. vm_compute. reflexivity. Qed.

(** ** Sort order *)

Section JsSortConsistent.
Context {A : Type} (comparefn : A → A → JsNumber) (ok : A → Prop).

Hypothesis comparefn_antisym :
  ∀ a b, sortCompare (comparefn a b) = (- sortCompare (comparefn b a))%Z.
Hypothesis comparefn_trans :
  ∀ a b c, ok a → ok b → ok c →
           notAfter comparefn a b → notAfter comparefn b c → notAfter comparefn a c.

Lemma jsSort_elem_of_insert z x placed :
  z ∈ insertBack comparefn x placed ↔ z = x ∨ z ∈ placed.
Proof.
  rewrite <- elem_of_cons, !list_elem_of_In.
  split; apply Permutation_in; [|symmetry]; apply insertBack_perm.
Qed.

Lemma insertBack_StronglySorted x placed :
  ok x → Forall ok placed →
  StronglySorted (flip (notAfter comparefn)) placed →
  StronglySorted (flip (notAfter comparefn)) (insertBack comparefn x placed).
Proof.
  intros Hx. induction placed as [|y rest IH]; simpl; intros Hok Hs.
  - repeat constructor.
  - apply Forall_cons in Hok as [Hy Hrest].
    apply StronglySorted_inv in Hs as [Hs Hall].
    rewrite Forall_forall in Hall. rewrite Forall_forall in Hrest.
    destruct (0 <? sortCompare (comparefn y x))%Z eqn:Hcmp.
    + constructor; [apply IH; [by apply Forall_forall | done]|].
      apply Forall_forall. intros z Hz.
      apply (proj1 (jsSort_elem_of_insert z x rest)) in Hz as [-> | Hz].
      * unfold flip, notAfter. rewrite comparefn_antisym.
        apply Z.ltb_lt in Hcmp. lia.
      * by apply Hall.
    + assert (notAfter comparefn y x) as Hyx.
      { unfold notAfter. apply Z.ltb_ge in Hcmp. lia. }
      constructor; [constructor; [done | by apply Forall_forall]|].
      constructor; [done|].
      apply Forall_forall. intros z Hz.
      unfold flip. apply (comparefn_trans z y x); [by apply Hrest|done..|by apply Hall|done].
Qed.

Lemma StronglySorted_snoc (R : A → A → Prop) k a :
  StronglySorted R k → Forall (λ y, R y a) k → StronglySorted R (k ++ [a]).
Proof.
  induction k as [|b k IH]; simpl; intros Hk Hrev.
  - repeat constructor.
  - apply Forall_cons in Hrev as [Hb Hrev].
    apply StronglySorted_inv in Hk as [Hk Hbk].
    constructor; [by apply IH|].
    apply Forall_app. split; [done | by constructor].
Qed.

Lemma StronglySorted_flip_reverse (R : A → A → Prop) l :
  StronglySorted (flip R) l → StronglySorted R (reverse l).
Proof.
  induction l as [|a l IH]; intros Hs; [constructor|].
  apply StronglySorted_inv in Hs as [Hl Hall]. rewrite reverse_cons.
  apply StronglySorted_snoc; [by apply IH|].
  apply Forall_forall. intros y Hy. rewrite Forall_forall in Hall.
  apply Hall. by apply (proj1 (elem_of_reverse _ _)).
Qed.

(** On elements the comparator orders consistently, the result is sorted
    throughout. *)
Lemma jsSort_StronglySorted l :
  Forall ok l → StronglySorted (notAfter comparefn) (jsSort comparefn l).
Proof.
  intros Hok. unfold jsSort. apply StronglySorted_flip_reverse.
  enough (∀ acc, Forall ok acc →
                 StronglySorted (flip (notAfter comparefn)) acc →
                 StronglySorted (flip (notAfter comparefn))
                   (fold_left (λ placed x, insertBack comparefn x placed) l acc))
    as Hgen by (apply Hgen; constructor).
  induction Hok as [|x l Hx Hl IH]; simpl; intros acc Hacc Hs; [done|].
  apply IH.
  - apply Forall_forall. intros z Hz.
    apply (proj1 (jsSort_elem_of_insert z x acc)) in Hz as [-> | Hz]; [done|].
    rewrite Forall_forall in Hacc. by apply Hacc.
  - by apply insertBack_StronglySorted.
Qed.
End JsSortConsistent.

Lemma StronglySorted_on {A} (ok : A → Prop) (R R' : A → A → Prop) l :
  StronglySorted R l → Forall ok l →
  (∀ a b, ok a → ok b → R a b → R' a b) →
  StronglySorted R' l.
Proof.
  intros Hs Hok Himpl. induction Hs as [|a l Hs IH Hall]; [constructor|].
  apply Forall_cons in Hok as [Ha Hok].
  constructor; [by apply IH|].
  rewrite Forall_forall in Hall. rewrite Forall_forall in Hok.
  apply Forall_forall. intros b Hb. apply Himpl; [done|by apply Hok|by apply Hall].
Qed.

Lemma compareSortOrder_missing a b :
  sort_order a = None ∨ sort_order b = None →
  sortCompare (compareSortOrder a b) = 0%Z.
Proof.
  unfold compareSortOrder.
  intros [-> | ->]; [done|]. by destruct (sort_order a).
Qed.

Lemma addShortnames_sort_order additional emoji :
  sort_order (addShortnames additional emoji) = sort_order emoji.
Proof. rewrite !addShortnames_eq. by destruct (additional !! short_name emoji). Qed.

(** C2, as stated, fails: with one dataset record of sort key 2, the record
    and the built-in entry tie (2 minus [undefined] is [NaN]), the stable
    sort leaves them as they are, and the list, the record followed by the
    built-in entry, is not ascending when the missing key counts as 0. *)
Lemma sorted_by_key_or_zero_fails :
  ¬ Sorted (λ a b, keyOrZero a ≤ keyOrZero b)%Z
           (fullEmojiSorted ∅ [] [grinning]).
Proof.
  assert (fullEmojiSorted ∅ [] [grinning] = [grinning; mattermostEmoji]) as ->
    by (vm_compute; reflexivity).
  intros Hs. apply Sorted_inv in Hs as [_ Hhd].
  apply HdRel_inv in Hhd. vm_compute in Hhd. by apply Hhd.
Qed.

Lemma keyless_records_stay additional excluded data :
  Forall (λ e, ∀ table, skin_variations e = Some table →
                        Forall (λ kv, var_sort_order kv.2 = None) table) data →
  fullEmojiSorted additional excluded data
  = jsSort compareSortOrder (addShortnames additional <$> filteredEmojiJson excluded data)
    ++ (addShortnames additional
          <$> flat_map genSkinVariations (filteredEmojiJson excluded data))
    ++ [mattermostEmoji]
  ∧ Forall (λ e, sort_order e = None)
      ((addShortnames additional
          <$> flat_map genSkinVariations (filteredEmojiJson excluded data))
       ++ [mattermostEmoji]).
Proof.
  intros Hvars. rewrite Forall_forall in Hvars.
  assert (Forall (λ e, sort_order e = None)
            ((addShortnames additional
                <$> flat_map genSkinVariations (filteredEmojiJson excluded data))
             ++ [mattermostEmoji])) as Hkeyless.
  { apply Forall_forall. intros u Hu.
    apply elem_of_app in Hu as [Hu | ->%list_elem_of_singleton]; [|done].
    apply list_elem_of_fmap in Hu as (v & -> & Hv).
    rewrite addShortnames_sort_order.
    apply list_elem_of_In, in_flat_map in Hv as (b & Hb & Hv).
    apply list_elem_of_In, elem_of_filteredEmojiJson in Hb as [Hb _].
    specialize (Hvars b Hb). unfold genSkinVariations in Hv.
    destruct (skin_variations b) as [table|]; [|done].
    specialize (Hvars table eq_refl).
    apply list_elem_of_In, list_elem_of_fmap in Hv as (kv & -> & Hkv).
    simpl. rewrite Forall_forall in Hvars. by apply Hvars. }
  split; [|done].
  unfold fullEmojiSorted, fullEmojiUnsorted, populateSkinTones.
  rewrite fmap_app, <- app_assoc.
  apply jsSort_app_ties. intros y u Hu.
  apply compareSortOrder_missing. right.
  rewrite Forall_forall in Hkeyless. by apply Hkeyless.
Qed.

Lemma keyed_records_ascend additional excluded data :
  Forall (λ e, is_Some (sort_order e)) data →
  StronglySorted (λ a b, ∃ ka kb, sort_order a = Some ka ∧ sort_order b = Some kb
                                  ∧ (ka ≤ kb)%Z)
    (jsSort compareSortOrder (addShortnames additional <$> filteredEmojiJson excluded data)).
Proof.
  intros Hkeyed. rewrite Forall_forall in Hkeyed.
  assert (Forall (λ e, is_Some (sort_order e))
            (addShortnames additional <$> filteredEmojiJson excluded data)) as Hkept.
  { apply Forall_forall. intros e (b & -> & Hb)%list_elem_of_fmap.
    rewrite addShortnames_sort_order. apply Hkeyed.
    by apply elem_of_filteredEmojiJson in Hb as [Hb _]. }
  eapply (StronglySorted_on (λ e, is_Some (sort_order e))).
  - apply (jsSort_StronglySorted compareSortOrder (λ e, is_Some (sort_order e))
             compareSortOrder_antisym); [|done].
    intros a b c [ka Ha] [kb Hb] [kc Hc]. unfold notAfter, compareSortOrder.
    rewrite Ha, Hb, Hc. simpl. lia.
  - apply Forall_forall. intros e He%jsSort_elem_of.
    rewrite Forall_forall in Hkept. by apply Hkept.
  - intros a b [ka Ha] [kb Hb]. unfold notAfter, compareSortOrder.
    rewrite Ha, Hb. simpl. intros Hle. exists ka, kb. repeat split; [done..|lia].
Qed.

(** C2, amended. The comparator is the difference of the two sort keys, and
    a tie as soon as one of the keys is missing: a missing key does not
    count as 0. On a dataset whose records all carry a sort key and whose
    skin variations carry none, the sorted list is a rearrangement of the
    combined list in which the records with a key come first, in ascending
    key order, the skin variations follow in the order they were generated,
    and the built-in entry, which has no key, is at the end. *)
Theorem sorted_by_comparator_with_ties
    (additional : gmap string (list string)) (excluded : list string)
    (data : list Emoji) :
  Forall (λ e, is_Some (sort_order e)) data →
  Forall (λ e, ∀ table, skin_variations e = Some table →
                        Forall (λ kv, var_sort_order kv.2 = None) table) data →
  let sorted := fullEmojiSorted additional excluded data in
  let kept := filteredEmojiJson excluded data in
  let variations := addShortnames additional <$> flat_map genSkinVariations kept in
  (∀ a b ka kb, sort_order a = Some ka → sort_order b = Some kb →
                sortCompare (compareSortOrder a b) = (ka - kb)%Z)
  ∧ (∀ a b, sort_order a = None ∨ sort_order b = None →
            sortCompare (compareSortOrder a b) = 0%Z)
  ∧ sorted ≡ₚ fullEmojiUnsorted additional excluded data
  ∧ ∃ keyed,
      sorted = keyed ++ variations ++ [mattermostEmoji]
      ∧ keyed ≡ₚ addShortnames additional <$> kept
      ∧ StronglySorted (λ a b, ∃ ka kb, sort_order a = Some ka
                                        ∧ sort_order b = Some kb ∧ (ka ≤ kb)%Z) keyed
      ∧ Forall (λ e, sort_order e = None) (variations ++ [mattermostEmoji]).
Proof.
  intros Hkeyed Hvars sorted kept variations. subst sorted kept variations.
  split; [|split; [|split]].
  - intros a b ka kb Ha Hb. unfold compareSortOrder. by rewrite Ha, Hb.
  - apply compareSortOrder_missing.
  - apply jsSort_perm.
  - destruct (keyless_records_stay additional excluded data Hvars) as [Heq Hkeyless].
    eexists. split; [exact Heq|]. split; [apply jsSort_perm|].
    split; [by apply keyed_records_ascend | done].
Qed.

Lemma sorted_by_comparator_with_ties_witness :
  ∃ keyed,
    fullEmojiSorted sampleShortnames [] sampleData
    = keyed
      ++ (addShortnames sampleShortnames
            <$> flat_map genSkinVariations (filteredEmojiJson [] sampleData))
      ++ [mattermostEmoji]
    ∧ keyed ≡ₚ addShortnames sampleShortnames <$> filteredEmojiJson [] sampleData.
Proof.
  destruct (sorted_by_comparator_with_ties sampleShortnames [] sampleData)
    as (_ & _ & _ & keyed & Heq & Hperm & _).
  - repeat constructor; by eexists.
  - repeat constructor; intros table [= <-]; repeat constructor.
  - exists keyed. split; [exact Heq | exact Hperm].
Defined.

(** X19. On a dataset whose records all carry a sort key and whose skin
    variations carry none, the sorted list is the dataset records in
    ascending key order, then the skin variations in the order they were
    generated, then the built-in entry. *)
Lemma sorted_keyed_then_keyless
    (additional : gmap string (list string)) (excluded : list string)
    (data : list Emoji) :
  Forall (λ e, is_Some (sort_order e)) data →
  Forall (λ e, ∀ table, skin_variations e = Some table →
                        Forall (λ kv, var_sort_order kv.2 = None) table) data →
  let kept := addShortnames additional <$> filteredEmojiJson excluded data in
  let variations :=
    addShortnames additional
      <$> flat_map genSkinVariations (filteredEmojiJson excluded data) in
  fullEmojiSorted additional excluded data
  = jsSort compareSortOrder kept ++ variations ++ [mattermostEmoji]
  ∧ StronglySorted (λ a b, keyOrZero a ≤ keyOrZero b)%Z
                   (jsSort compareSortOrder kept).
Proof.
  intros Hkeyed Hvars kept variations.
  rewrite Forall_forall in Hkeyed. rewrite Forall_forall in Hvars. split.
  - unfold fullEmojiSorted, fullEmojiUnsorted, populateSkinTones.
    rewrite fmap_app, <- app_assoc.
    apply jsSort_app_ties. intros y u Hu.
    apply compareSortOrder_missing. right.
    apply elem_of_app in Hu as [Hu | ->%list_elem_of_singleton]; [|done].
    apply list_elem_of_fmap in Hu as (v & -> & Hv).
    rewrite addShortnames_sort_order.
    apply list_elem_of_In, in_flat_map in Hv as (b & Hb & Hv).
    apply list_elem_of_In, elem_of_filteredEmojiJson in Hb as [Hb _].
    specialize (Hvars b Hb). unfold genSkinVariations in Hv.
    destruct (skin_variations b) as [table|]; [|done].
    specialize (Hvars table eq_refl).
    apply list_elem_of_In, list_elem_of_fmap in Hv as (kv & -> & Hkv).
    simpl. rewrite Forall_forall in Hvars. by apply Hvars.
  - assert (Forall (λ e, is_Some (sort_order e)) kept) as Hkept.
    { apply Forall_forall. intros e (b & -> & Hb)%list_elem_of_fmap.
      rewrite addShortnames_sort_order. apply Hkeyed.
      by apply elem_of_filteredEmojiJson in Hb as [Hb _]. }
    eapply (StronglySorted_on (λ e, is_Some (sort_order e))).
    + apply (jsSort_StronglySorted compareSortOrder (λ e, is_Some (sort_order e))
               compareSortOrder_antisym); [|done].
      intros a b c [ka Ha] [kb Hb] [kc Hc]. unfold notAfter, compareSortOrder.
      rewrite Ha, Hb, Hc. simpl. lia.
    + apply Forall_forall. intros e He%jsSort_elem_of.
      rewrite Forall_forall in Hkept. by apply Hkept.
    + intros a b [ka Ha] [kb Hb]. unfold notAfter, compareSortOrder, keyOrZero.
      rewrite Ha, Hb. simpl. lia.
Qed.

(** ** Skin expansion *)

Example skinSuffix_two_tones :
  skinSuffix "1F3FB-1F3FF" = "light_skin_tone_dark_skin_tone"
  ∧ skinLabel "1F3FB-1F3FF" = "LIGHT SKIN TONE, DARK SKIN TONE".
Proof. split; reflexivity. Qed.

(** A code outside the table joins as the empty string. *)
Example skinSuffix_unknown_code : skinSuffix "1F3FA-1F3FB" = "_light_skin_tone".
Proof. reflexivity. Qed.

(** The tag and the label of a code are what the script's lookup in the
    skin tables gives: the table's text for the five skin codes, the text of
    the member for a name every object inherits, nothing otherwise. *)
Lemma propertyText_cases table code :
  (∀ text, mapGet table code = Some text → propertyText table code = Some text)
  ∧ (mapGet table code = None → code ∉ objectPrototype.*1 →
     propertyText table code = None)
  ∧ (mapGet table code = None → code ∈ objectPrototype.*1 →
     is_Some (propertyText table code)).
Proof.
  unfold propertyText. split; [|split].
  - by intros text ->.
  - intros -> Hout. destruct (mapGet objectPrototype code) eqn:Hget; [|done].
    exfalso. apply Hout, mapGet_is_Some. by eexists.
  - intros -> Hin. by apply mapGet_is_Some.
Qed.

Example skinSuffix_inherited_member :
  skinSuffix "constructor-1F3FB" = "function Object() { [native code] }_light_skin_tone".
Proof. reflexivity. Qed.



(** A record without a table yields nothing, and the expanded list is the
    filtered list followed by the new records of each record in turn. *)
Lemma populateSkinTones_length filtered :
  length (populateSkinTones filtered)
  = length filtered
    + sum_list ((λ emoji, length (default [] (skin_variations emoji))) <$> filtered).
Proof.
  unfold populateSkinTones. rewrite length_app. f_equal.
  induction filtered as [|e l IH]; simpl; [done|].
  rewrite length_app, IH. f_equal.
  unfold genSkinVariations. destruct (skin_variations e); simpl; [|done].
  apply length_fmap.
Qed.

(** ** Alias augmentation *)

Lemma withShortNames_same emoji : withShortNames emoji (short_names emoji) = emoji.
Proof. by destruct emoji. Qed.

Lemma addOldShortnames_returned additional emoji :
  (additional !! short_name emoji = None → short_name emoji ∉ objectPrototype.*1) →
  addOldShortnames additional emoji = Returned (addShortnames additional emoji).
Proof.
  intros Hok. unfold addShortnames.
  destruct (addOldShortnames additional emoji) as [augmented|] eqn:Hcall; [done|].
  exfalso. unfold addOldShortnames, inObject in Hcall.
  destruct (additional !! short_name emoji) as [extra|] eqn:Hget.
  - rewrite bool_decide_eq_true_2 in Hcall by eauto. done.
  - specialize (Hok eq_refl).
    rewrite bool_decide_eq_false_2 in Hcall by (by intros [? ?]).
    by rewrite (bool_decide_eq_false_2 _ Hok) in Hcall.
Qed.

Lemma addOldShortnames_threw additional emoji :
  additional !! short_name emoji = None → short_name emoji ∈ objectPrototype.*1 →
  addOldShortnames additional emoji = ThrewTypeError.
Proof.
  intros Hget Hin. unfold addOldShortnames, inObject. rewrite Hget.
  rewrite (bool_decide_eq_true_2 _ Hin). by rewrite orb_true_r.
Qed.

(** The augmentation pass returns exactly when no record has, as short name,
    an inherited member name that is not a key of the table; it then leaves
    the list that [fullEmoji] is modelled with: each record keeps all its
    properties but its alias list, which gets the table's extra aliases
    appended when the record's short name is a key of the table. *)
Lemma addOldShortnamesAll_returned additional l :
  (∀ r, r ∈ l → additional !! short_name r = None →
        short_name r ∉ objectPrototype.*1)
  ↔ addOldShortnamesAll additional l = Returned (addShortnames additional <$> l).
Proof.
  induction l as [|e l IH]; simpl.
  - split; [done | by intros _ r ?%elem_of_nil].
  - split.
    + intros Hok. rewrite addOldShortnames_returned by (apply Hok; left).
      rewrite (proj1 IH); [done|]. intros r Hr. apply Hok. by right.
    + intros Hall r Hr Hget Hin.
      destruct (addOldShortnames additional e) as [augmented|] eqn:He; [|done].
      destruct (addOldShortnamesAll additional l) as [others|] eqn:Hl; [|done].
      injection Hall as Hhd Htl.
      apply elem_of_cons in Hr as [->|Hr].
      * by rewrite (addOldShortnames_threw additional e Hget Hin) in He.
      * apply (proj2 IH) in Hr; [done|by rewrite Htl|done].
Qed.

Lemma addShortnames_pointwise additional r :
  addShortnames additional r
  = withShortNames r (short_names (addShortnames additional r))
  ∧ match additional !! short_name r with
    | Some extra => short_names (addShortnames additional r) = short_names r ++ extra
    | None => addShortnames additional r = r
    end.
Proof.
  rewrite !addShortnames_eq. destruct (additional !! short_name r) as [extra|].
  - done.
  - by rewrite withShortNames_same.
Qed.

(** C4, on a failing input. A dataset record whose short name is
    [constructor], with a compatibility table that has no such key: the test
    [short_name in additionalShortnames] holds through the prototype, the
    spread of the inherited member throws, and the pass, with it the run,
    ends at that record instead of leaving its alias list as it is. *)
Theorem augmentation_throws_on_inherited_name :
  sampleShortnames !! short_name constructorEmoji = None
  ∧ inObject sampleShortnames (short_name constructorEmoji) = true
  ∧ addOldShortnames sampleShortnames constructorEmoji = ThrewTypeError
  ∧ addOldShortnamesAll sampleShortnames
      (populateSkinTones (filteredEmojiJson [] [grinning; constructorEmoji]))
    = ThrewTypeError.
Proof. repeat split; vm_compute; reflexivity. Qed.

(** ** Sprite positions *)

Lemma spritePosition_coordinates emoji x y :
  sheet_x emoji = Some x → sheet_y emoji = Some y →
  spritePosition emoji
  = "-" +:+ pretty (x * 66)%Z +:+ "px -" +:+ pretty (y * 66)%Z +:+ "px;".
Proof. intros Hx Hy. unfold spritePosition. by rewrite Hx, Hy. Qed.

(** C5, as stated, fails: a dataset record of category [Custom] is not the
    built-in entry, and no sprite position is recorded for it. *)
Lemma sprite_position_for_every_record_fails :
  ¬ ∀ r, r ∈ fullEmojiSorted ∅ [] [customCategoryEmoji] →
         r ≠ mattermostEmoji →
         mapGet (emojiFilePositions
                   (emoji_jsx_index (generate ∅ [] [] [customCategoryEmoji])))
                (filename r)
         = Some (spritePosition r).
Proof.
  intros Hall. specialize (Hall customCategoryEmoji).
  assert (fullEmojiSorted ∅ [] [customCategoryEmoji]
          = [customCategoryEmoji; mattermostEmoji]) as Hsorted
    by (vm_compute; reflexivity).
  rewrite Hsorted in Hall.
  specialize (Hall ltac:(left) ltac:(discriminate)).
  vm_compute in Hall. discriminate.
Qed.

(** C5, amended. The padded tile size is 64 + 2 = 66. The pass over a record
    whose normalized category is not [custom] (this leaves out the built-in
    entry and any dataset record of a category named Custom) and whose sheet
    coordinates are present, their products with 66 being safe integers,
    sets, under the record's image base name, the offset string made of the
    coordinates times 66; the pass over the built-in entry sets nothing; in
    the finished table a record's key holds that record's offset when no
    other such record has the same base name, and the key of the built-in
    entry is absent when no such record has its base name; coordinates
    (3, 0) give [-198px -0px;]. *)
Theorem sprite_position_recorded
    (additional : gmap string (list string)) (cats : list (string * list string))
    (excluded : list string) (data : list Emoji) :
  let sorted := fullEmojiSorted additional excluded data in
  let positions :=
    emojiFilePositions (emoji_jsx_index (generate additional cats excluded data)) in
  EMOJI_SIZE_PADDED = (64 + 2)%Z
  ∧ (∀ st index emoji x y,
       convertCategory (category emoji) ≠ "custom" →
       sheet_x emoji = Some x → sheet_y emoji = Some y →
       safeInteger (x * 66) → safeInteger (y * 66) →
       mapGet (emojiFilePositions (indexEmoji st index emoji)) (filename emoji)
       = Some ("-" +:+ pretty (x * 66)%Z +:+ "px -" +:+ pretty (y * 66)%Z +:+ "px;"))
  ∧ (∀ st index,
       emojiFilePositions (indexEmoji st index mattermostEmoji) = emojiFilePositions st)
  ∧ (∀ st index emoji,
       convertCategory (category emoji) = "custom" →
       emojiFilePositions (indexEmoji st index emoji) = emojiFilePositions st)
  ∧ (∀ i r x y,
       sorted !! i = Some r →
       convertCategory (category r) ≠ "custom" →
       sheet_x r = Some x → sheet_y r = Some y →
       safeInteger (x * 66) → safeInteger (y * 66) →
       (∀ j other, j ≠ i → sorted !! j = Some other →
                   convertCategory (category other) ≠ "custom" →
                   filename other ≠ filename r) →
       mapGet positions (filename r)
       = Some ("-" +:+ pretty (x * 66)%Z +:+ "px -" +:+ pretty (y * 66)%Z +:+ "px;"))
  ∧ ((∀ r, r ∈ sorted → convertCategory (category r) ≠ "custom" →
           filename r ≠ filename mattermostEmoji) →
     mapGet positions (filename mattermostEmoji) = None)
  ∧ (∀ emoji, sheet_x emoji = Some 3%Z → sheet_y emoji = Some 0%Z →
              spritePosition emoji = "-198px -0px;").
Proof.
  intros sorted positions. subst sorted positions.
  split; [reflexivity|]. split; [|split; [|split; [|split; [|split]]]].
  - intros st index emoji x y Hcat Hx Hy _ _. simpl.
    rewrite decide_False by done.
    rewrite mapGet_mapSet, decide_True by done.
    by rewrite (spritePosition_coordinates emoji x y).
  - done.
  - intros st index emoji Hcat. simpl. by rewrite decide_True.
  - intros i r x y Hi Hcat Hx Hy _ _ Hother. unfold generate. simpl.
    rewrite forEachIndexed_positions.
    rewrite (lastPosition_at _ i r Hi Hcat).
    + by rewrite (spritePosition_coordinates r x y).
    + intros j other Hlt. apply Hother. lia.
  - intros Hfree. unfold generate. simpl.
    rewrite forEachIndexed_positions.
    by apply lastPosition_None in Hfree as ->.
  - intros emoji Hx Hy. by rewrite (spritePosition_coordinates emoji 3 0).
Qed.

Example sprite_positions_of_sample :
  emojiFilePositions (emoji_jsx_index (generate sampleShortnames sampleCategories [] sampleData))
  = [("1f44d", "-66px -132px;"); ("1f600", "-198px -0px;");
     ("1f44d-1f3fb", "-66px -198px;"); ("1f44d-1f3ff", "-66px -264px;")].
Proof. vm_compute. reflexivity. Qed.

(** ** Alias index *)

Lemma forEachIndexed_byAlias_elem l alias i :
  (alias, i) ∈ emojiIndicesByAlias (forEachIndexed 0 emptyIndexState l)
  ↔ ∃ r, l !! i = Some r ∧ alias ∈ short_names r.
Proof.
  rewrite forEachIndexed_byAlias. simpl. rewrite elem_of_concat. split.
  - intros (ps & (j & r & -> & Hj)%elem_of_lookup_imap & Hin).
    apply list_elem_of_fmap in Hin as (a & [= -> ->] & Ha). by exists r.
  - intros (r & Hi & Ha). eexists. split.
    + apply elem_of_lookup_imap. by exists i, r.
    + simpl. apply list_elem_of_fmap. by exists alias.
Qed.

(** C6. Every pair (alias, i) of the alias index has, at position i of the
    sorted list, a record with that alias among its short names, and every
    alias of every record of the sorted list is paired with the record's
    position; so every entry of the [Map] built from the pairs points to a
    record that carries the alias. The JSON array has the same alias lists
    at the same positions. *)
Theorem alias_index_points_to_alias_owner
    (additional : gmap string (list string)) (cats : list (string * list string))
    (excluded : list string) (data : list Emoji) :
  let sorted := fullEmojiSorted additional excluded data in
  let out := generate additional cats excluded data in
  let pairs := emojiIndicesByAlias (emoji_jsx_index out) in
  (∀ alias i, (alias, i) ∈ pairs → ∃ r, sorted !! i = Some r ∧ alias ∈ short_names r)
  ∧ (∀ i r alias, sorted !! i = Some r → alias ∈ short_names r → (alias, i) ∈ pairs)
  ∧ (∀ alias i, mapGet (newMap pairs) alias = Some i →
                ∃ r, sorted !! i = Some r ∧ alias ∈ short_names r)
  ∧ (∀ alias i, (alias, i) ∈ pairs → is_Some (mapGet (newMap pairs) alias))
  ∧ short_names <$> emoji_json out = short_names <$> sorted.
Proof.
  intros sorted out pairs. split; [|split; [|split; [|split]]].
  - intros alias i Hin. by apply forEachIndexed_byAlias_elem.
  - intros i r alias Hi Ha. apply forEachIndexed_byAlias_elem. by exists r.
  - intros alias i Hget%newMap_lookup_entry. by apply forEachIndexed_byAlias_elem.
  - intros alias i Hin. by eapply newMap_has_key.
  - unfold out, generate. simpl. by rewrite <- !list_fmap_compose.
Qed.

(** ** Image names *)


(** ** Category names *)

Lemma categoryList_filter cats :
  categoryList cats = convertCategory <$> filter (λ key, key ≠ "Component") (cats.*1).
Proof.
  unfold categoryList. f_equal.
  induction (cats.*1) as [|key keys IH]; simpl; [done|].
  rewrite filter_cons. destruct (decide (key ≠ "Component")) as [Hne|Heq].
  - rewrite bool_decide_eq_false_2 by done. simpl. by f_equal.
  - rewrite bool_decide_eq_true_2 by (by destruct (decide (key = "Component"))).
    done.
Qed.

(** C7, as stated, fails: a category table with the key [Component] does
    not give [recent], every key, [custom]. *)
Lemma categoryNames_every_key_fails :
  categoryNames sampleCategories
  ≠ "recent" :: (convertCategory <$> sampleCategories.*1) ++ ["custom"].
Proof. intros Heq. apply (f_equal length) in Heq. vm_compute in Heq. discriminate. Qed.

(** C7, amended. The category names are [recent], then the keys of the
    category table other than [Component], in the table's order and each in
    lower case with its first [" & "] replaced by [-], then [custom]; when
    the table has no key [Component] these are all its keys. *)
Theorem categoryNames_without_component (cats : list (string * list string)) :
  categoryNames cats
  = "recent"
      :: ((λ key, replace " & " "-" (toLowerCase key))
            <$> filter (λ key, key ≠ "Component") (cats.*1))
      ++ ["custom"]
  ∧ ("Component" ∉ cats.*1 →
     categoryNames cats
     = "recent" :: ((λ key, replace " & " "-" (toLowerCase key)) <$> cats.*1)
                ++ ["custom"])
  ∧ categoryNames sampleCategories
    = ["recent"; "smileys-emotion"; "people-body"; "flags"; "custom"].
Proof.
  split; [|split].
  - unfold categoryNames. by rewrite categoryList_filter.
  - intros Hno. unfold categoryNames. rewrite categoryList_filter.
    do 3 f_equal. induction (cats.*1) as [|key keys IH]; [done|].
    rewrite not_elem_of_cons in Hno. destruct Hno as [Hne Hno].
    rewrite filter_cons, decide_True by done. f_equal. by apply IH.
  - reflexivity.
Qed.

(** ** The exclusion file *)


Example missing_exclusion_file_throws :
  main (sampleEnv (Some "excluded-emoji.txt") (λ _, None) None) = Thrown.
Proof. reflexivity. Qed.

Example exclusion_file_lines :
  excludedEmoji
    (sampleEnv (Some "excluded-emoji.txt")
               (λ _, Some ("thumbsup" +:+ String CR (String LF "grinning")))
               None)
  = Some ["thumbsup"; "grinning"].
Proof. reflexivity. Qed.

(** * Further properties *)

(** ** Index lists under a key *)

Section JsMapOrder.
Context {K V : Type} `{EqDecision K}.
Implicit Types (m : JsMap K V) (k : K) (v : V).

Lemma mapSet_key_order m k v :
  (k ∈ m.*1 → (mapSet m k v).*1 = m.*1)
  ∧ (k ∉ m.*1 → (mapSet m k v).*1 = m.*1 ++ [k]).
Proof.
  induction m as [|[k0 v0] m [IHin IHout]]; simpl.
  - split; [by intros ?%elem_of_nil | done].
  - destruct (decide (k0 = k)) as [->|Hne]; simpl.
    + split; [done|]. intros Hout. exfalso. apply Hout. left.
    + split.
      * intros [->|Hin]%elem_of_cons; [done|]. f_equal. by apply IHin.
      * intros [_ Hout]%not_elem_of_cons. f_equal. by apply IHout.
Qed.

Lemma mapSet_NoDup m k v : NoDup (m.*1) → NoDup ((mapSet m k v).*1).
Proof.
  intros Hnd. destruct (mapSet_key_order m k v) as [Hin Hout].
  destruct (decide (k ∈ m.*1)) as [Hk|Hk]; [by rewrite Hin|].
  rewrite Hout by done.
  apply NoDup_app. split; [done|]. split.
  - intros x Hx ->%list_elem_of_singleton. done.
  - apply NoDup_singleton.
Qed.
End JsMapOrder.

(** X1. [addIndexToMap] appends to the list already under the key, starts a
    list for a key the map does not have, leaves every other key as it was,
    and keeps the keys in insertion order: an old key keeps its place, a new
    key goes last. *)
Theorem addIndexToMap_lookup {K} `{EqDecision K}
    (emojiMap : JsMap K (list nat)) (key other : K) (indexes : list nat) :
  mapGet (addIndexToMap emojiMap key indexes) key
  = Some (default [] (mapGet emojiMap key) ++ indexes)
  ∧ (other ≠ key →
     mapGet (addIndexToMap emojiMap key indexes) other = mapGet emojiMap other)
  ∧ (key ∈ emojiMap.*1 → (addIndexToMap emojiMap key indexes).*1 = emojiMap.*1)
  ∧ (key ∉ emojiMap.*1 →
     (addIndexToMap emojiMap key indexes).*1 = emojiMap.*1 ++ [key])
  ∧ (mapGet emojiMap key = None →
     mapGet (addIndexToMap emojiMap key indexes) key = Some indexes).
Proof.
  unfold addIndexToMap. split; [|split; [|split; [|split]]].
  - rewrite mapGet_mapSet. by rewrite decide_True.
  - intros Hne. rewrite mapGet_mapSet. by rewrite decide_False.
  - apply mapSet_key_order.
  - apply mapSet_key_order.
  - intros Hnone. rewrite mapGet_mapSet, decide_True, Hnone by done. done.
Qed.

Lemma positionsWhere_elem P index l i :
  i ∈ positionsWhere P index l
  ↔ ∃ r, index ≤ i ∧ l !! (i - index) = Some r ∧ P r = true.
Proof.
  revert index. induction l as [|e l IH]; intros index; simpl.
  - split; [by intros ?%elem_of_nil | by intros (r & _ & ? & _)].
  - assert (i ∈ positionsWhere P (S index) l
            ↔ ∃ r, index < i ∧ (e :: l) !! (i - index) = Some r ∧ P r = true) as Htail.
    { rewrite IH. split.
      - intros (r & Hle & Hr & HP). exists r. split; [lia|]. split; [|done].
        by replace (i - index) with (S (i - S index)) by lia.
      - intros (r & Hlt & Hr & HP). exists r. split; [lia|]. split; [|done].
        by replace (i - index) with (S (i - S index)) in Hr by lia. }
    destruct (P e) eqn:HPe.
    + rewrite elem_of_cons, Htail. split.
      * intros [-> | (r & Hlt & Hr & HP)].
        -- exists e. rewrite Nat.sub_diag. done.
        -- exists r. split; [lia | done].
      * intros (r & Hle & Hr & HP).
        destruct (decide (i = index)) as [->|Hne]; [by left|].
        right. exists r. split; [lia | done].
    + rewrite Htail. split.
      * intros (r & Hlt & Hr & HP). exists r. split; [lia | done].
      * intros (r & Hle & Hr & HP).
        destruct (decide (i = index)) as [->|Hne].
        -- rewrite Nat.sub_diag in Hr. simpl in Hr. congruence.
        -- exists r. split; [lia | done].
Qed.

Lemma positionsWhere_elem_0 P l i :
  i ∈ positionsWhere P 0 l ↔ ∃ r, l !! i = Some r ∧ P r = true.
Proof.
  rewrite positionsWhere_elem. rewrite Nat.sub_0_r.
  split; [intros (r & _ & ?); by exists r | intros (r & ?); exists r; split; [lia|done]].
Qed.

Lemma positionsWhere_ascending P index l :
  StronglySorted lt (positionsWhere P index l).
Proof.
  revert index. induction l as [|e l IH]; intros index; simpl; [constructor|].
  destruct (P e); [|apply IH].
  constructor; [apply IH|].
  apply Forall_forall. intros i (r & Hle & _)%positionsWhere_elem. lia.
Qed.

Lemma pushed_None positions : default [] (pushed None positions) = positions.
Proof. by destruct positions. Qed.

Section IndexTable.
Context (get : IndexState → option (list nat)) (P : Emoji → bool).

Hypothesis get_indexEmoji :
  ∀ st index emoji,
    get (indexEmoji st index emoji)
    = if P emoji then Some (default [] (get st) ++ [index]) else get st.

(** A table filled by [addIndexToMap] holds, under a key, the positions of
    the records filed under that key, in the order of the list. *)
Lemma forEachIndexed_table index st l :
  get (forEachIndexed index st l) = pushed (get st) (positionsWhere P index l).
Proof.
  revert index st. induction l as [|e l IH]; intros index st; simpl; [done|].
  rewrite IH, get_indexEmoji. destruct (P e); [|done].
  destruct (positionsWhere P (S index) l) as [|i rest]; simpl; [done|].
  by rewrite <- app_assoc.
Qed.
End IndexTable.

Lemma mapGet_addIndexToMap {K} `{EqDecision K}
    (m : JsMap K (list nat)) (key k : K) (i : nat) :
  mapGet (addIndexToMap m key [i]) k
  = if decide (key = k) then Some (default [] (mapGet m k) ++ [i]) else mapGet m k.
Proof.
  unfold addIndexToMap. rewrite mapGet_mapSet.
  by destruct (decide (key = k)) as [->|].
Qed.

Lemma byCategory_table cat l :
  mapGet (emojiIndicesByCategory (forEachIndexed 0 emptyIndexState l)) cat
  = pushed None (positionsWhere (inCategory cat) 0 l).
Proof.
  apply (forEachIndexed_table
           (λ st, mapGet (emojiIndicesByCategory st) cat) (inCategory cat)).
  intros st index emoji. simpl. rewrite mapGet_addIndexToMap. unfold inCategory.
  destruct (decide (convertCategory (category emoji) = cat)) as [Heq|Hne].
  - by rewrite bool_decide_eq_true_2.
  - by rewrite bool_decide_eq_false_2.
Qed.

Lemma noSkin_table cat l :
  mapGet (emojiIndicesByCategoryNoSkin (forEachIndexed 0 emptyIndexState l)) cat
  = pushed None (positionsWhere (λ e, negb (hasSkin e) && inCategory cat e) 0 l).
Proof.
  apply (forEachIndexed_table
           (λ st, mapGet (emojiIndicesByCategoryNoSkin st) cat)
           (λ e, negb (hasSkin e) && inCategory cat e)).
  intros st index emoji. simpl. destruct (hasSkin emoji); simpl; [done|].
  rewrite mapGet_addIndexToMap. unfold inCategory.
  destruct (decide (convertCategory (category emoji) = cat)) as [Heq|Hne].
  - by rewrite bool_decide_eq_true_2.
  - by rewrite bool_decide_eq_false_2.
Qed.

Lemma bySkin_table skin cat l :
  mapGet2 (emojiIndicesByCategoryAndSkin (forEachIndexed 0 emptyIndexState l)) skin cat
  = pushed None
      (positionsWhere
         (λ e, hasSkin e && bool_decide (skinOf e = skin) && inCategory cat e) 0 l).
Proof.
  apply (forEachIndexed_table
           (λ st, mapGet2 (emojiIndicesByCategoryAndSkin st) skin cat)
           (λ e, hasSkin e && bool_decide (skinOf e = skin) && inCategory cat e)).
  intros st index emoji. simpl. destruct (hasSkin emoji); simpl; [|done].
  unfold mapGet2. rewrite mapGet_mapSet.
  destruct (decide (skinOf emoji = skin)) as [Heq|Hne].
  - rewrite bool_decide_eq_true_2 by done. simpl.
    rewrite mapGet_addIndexToMap, Heq. unfold inCategory.
    destruct (decide (convertCategory (category emoji) = cat)) as [Hc|Hc].
    + by rewrite bool_decide_eq_true_2.
    + by rewrite bool_decide_eq_false_2.
  - by rewrite bool_decide_eq_false_2.
Qed.

Lemma emoji_json_lookup additional cats excluded data i t :
  emoji_json (generate additional cats excluded data) !! i = Some t
  ↔ ∃ r, fullEmojiSorted additional excluded data !! i = Some r
         ∧ t = trimPropertiesFromEmoji (markEmoji r).
Proof.
  unfold generate. simpl. rewrite !list_lookup_fmap.
  destruct (fullEmojiSorted additional excluded data !! i) as [r|]; simpl.
  - split; [intros [= <-]; by exists r | by intros (r' & [= <-] & ->)].
  - split; [done | by intros (r' & ? & _)].
Qed.

(** ** Category and skin indices *)

(** X2. The index list of a category is exactly the positions, in ascending
    order, of the records of the JSON array whose category is that category:
    a category with a list has at least one record, and every position is in
    the list of its record's category. *)
Theorem category_index_lists_positions
    (additional : gmap string (list string)) (cats : list (string * list string))
    (excluded : list string) (data : list Emoji) :
  let out := generate additional cats excluded data in
  let byCategory := emojiIndicesByCategory (emoji_jsx_index out) in
  (∀ cat indices, mapGet byCategory cat = Some indices →
     indices ≠ [] ∧ StronglySorted lt indices
     ∧ ∀ i, i ∈ indices ↔ ∃ t, emoji_json out !! i = Some t ∧ category t = cat)
  ∧ (∀ i t, emoji_json out !! i = Some t →
       ∃ indices, mapGet byCategory (category t) = Some indices ∧ i ∈ indices).
Proof.
  intros out byCategory. subst out byCategory.
  assert (∀ cat i,
            i ∈ positionsWhere (inCategory cat) 0 (fullEmojiSorted additional excluded data)
            ↔ ∃ t, emoji_json (generate additional cats excluded data) !! i = Some t
                   ∧ category t = cat) as Hpos.
  { intros cat i. rewrite positionsWhere_elem_0. split.
    - intros (r & Hr & Hc%bool_decide_eq_true). eexists. split.
      + apply emoji_json_lookup. by exists r.
      + done.
    - intros (t & (r & Hr & ->)%emoji_json_lookup & Hc). exists r.
      split; [done | by apply bool_decide_eq_true]. }
  split.
  - intros cat indices Hget. unfold generate in Hget. simpl in Hget.
    rewrite byCategory_table in Hget.
    pose proof (positionsWhere_ascending (inCategory cat) 0
                  (fullEmojiSorted additional excluded data)) as Hasc.
    specialize (Hpos cat).
    destruct (positionsWhere (inCategory cat) 0 (fullEmojiSorted additional excluded data))
      as [|i0 rest]; simpl in Hget; [done|].
    injection Hget as <-. done.
  - intros i t Ht.
    assert (i ∈ positionsWhere (inCategory (category t)) 0
                  (fullEmojiSorted additional excluded data)) as Hin
      by (apply Hpos; by exists t).
    unfold generate. simpl. rewrite byCategory_table.
    destruct (positionsWhere _ 0 _) as [|i0 rest]; [by apply elem_of_nil in Hin|].
    simpl. by eexists.
Qed.

Lemma emoji_jsx_index_generate additional cats excluded data :
  emoji_jsx_index (generate additional cats excluded data)
  = forEachIndexed 0 emptyIndexState (fullEmojiSorted additional excluded data).
Proof. done. Qed.

Lemma hasSkin_final r : hasSkin (trimPropertiesFromEmoji (markEmoji r)) = hasSkin r.
Proof. done. Qed.

Lemma skinOf_final r : skinOf (trimPropertiesFromEmoji (markEmoji r)) = skinOf r.
Proof. done. Qed.

Lemma noSkin_index_elem additional cats excluded data cat i :
  i ∈ default [] (mapGet (emojiIndicesByCategoryNoSkin
                            (emoji_jsx_index (generate additional cats excluded data))) cat)
  ↔ ∃ t, emoji_json (generate additional cats excluded data) !! i = Some t
         ∧ category t = cat ∧ hasSkin t = false.
Proof.
  rewrite emoji_jsx_index_generate.
  rewrite noSkin_table, pushed_None, positionsWhere_elem_0. split.
  - intros (r & Hr & [Hs%negb_true_iff Hc%bool_decide_eq_true]%andb_true_iff).
    eexists. split; [apply emoji_json_lookup; by exists r|]. done.
  - intros (t & (r & Hr & ->)%emoji_json_lookup & Hc & Hs). exists r.
    split; [done|]. rewrite hasSkin_final in Hs. rewrite Hs. simpl.
    by apply bool_decide_eq_true.
Qed.

Lemma bySkin_index_elem additional cats excluded data skin cat i :
  i ∈ default [] (mapGet2 (emojiIndicesByCategoryAndSkin
                             (emoji_jsx_index (generate additional cats excluded data)))
                          skin cat)
  ↔ ∃ t, emoji_json (generate additional cats excluded data) !! i = Some t
         ∧ category t = cat ∧ hasSkin t = true ∧ skinOf t = skin.
Proof.
  rewrite emoji_jsx_index_generate.
  rewrite bySkin_table, pushed_None, positionsWhere_elem_0. split.
  - intros (r & Hr & [[Hs Hk%bool_decide_eq_true]%andb_true_iff
                        Hc%bool_decide_eq_true]%andb_true_iff).
    eexists. split; [apply emoji_json_lookup; by exists r|]. done.
  - intros (t & (r & Hr & ->)%emoji_json_lookup & Hc & Hs & Hk). exists r.
    split; [done|]. rewrite hasSkin_final in Hs. rewrite skinOf_final in Hk.
    rewrite Hs. simpl. rewrite bool_decide_eq_true_2 by done. simpl.
    by apply bool_decide_eq_true.
Qed.

(** X3. Every position is filed once by skin: the no-skin list of a
    category holds the positions of its records that have neither a skins
    array nor a skin-variation table, the list of a skin and a category
    holds the positions of its records that have one of the two and whose
    skin (the first skin code, [default] without one) is that skin, and the
    list of all records of the category is the two kinds together. *)
Theorem skin_index_lists_split
    (additional : gmap string (list string)) (cats : list (string * list string))
    (excluded : list string) (data : list Emoji) :
  let out := generate additional cats excluded data in
  let st := emoji_jsx_index out in
  (∀ cat i, i ∈ default [] (mapGet (emojiIndicesByCategoryNoSkin st) cat)
            ↔ ∃ t, emoji_json out !! i = Some t ∧ category t = cat
                   ∧ hasSkin t = false)
  ∧ (∀ skin cat i,
       i ∈ default [] (mapGet2 (emojiIndicesByCategoryAndSkin st) skin cat)
       ↔ ∃ t, emoji_json out !! i = Some t ∧ category t = cat
              ∧ hasSkin t = true ∧ skinOf t = skin)
  ∧ (∀ cat i, i ∈ default [] (mapGet (emojiIndicesByCategory st) cat)
              ↔ i ∈ default [] (mapGet (emojiIndicesByCategoryNoSkin st) cat)
                ∨ ∃ skin, i ∈ default [] (mapGet2 (emojiIndicesByCategoryAndSkin st)
                                                  skin cat)).
Proof.
  intros out st. subst out st.
  split; [intros; apply noSkin_index_elem|].
  split; [intros; apply bySkin_index_elem|].
  intros cat i. rewrite noSkin_index_elem. setoid_rewrite bySkin_index_elem.
  rewrite emoji_jsx_index_generate.
  rewrite byCategory_table, pushed_None, positionsWhere_elem_0. split.
  - intros (r & Hr & Hc%bool_decide_eq_true).
    assert (emoji_json (generate additional cats excluded data) !! i
            = Some (trimPropertiesFromEmoji (markEmoji r))) as Ht
      by (apply emoji_json_lookup; by exists r).
    destruct (hasSkin r) eqn:Hs.
    + right. exists (skinOf r). eexists. split; [exact Ht|]. done.
    + left. eexists. split; [exact Ht|]. done.
  - intros [(t & (r & Hr & ->)%emoji_json_lookup & Hc & _)
           | (skin & t & (r & Hr & ->)%emoji_json_lookup & Hc & _)];
      exists r; (split; [done | by apply bool_decide_eq_true]).
Qed.

(** ** The category lookup of the generated module *)

Lemma genSkinnedCategories_lookup names bySkin noSkin skin cat :
  (cat ∈ names →
   mapGet (genSkinnedCategories names bySkin noSkin skin) cat
   = Some (default [] (mapGet noSkin cat) ++ default [] (mapGet2 bySkin skin cat)))
  ∧ (cat ∉ names → mapGet (genSkinnedCategories names bySkin noSkin skin) cat = None).
Proof.
  unfold genSkinnedCategories.
  set (f := λ (result : JsMap string (list nat)) (c : string),
              mapSet result c (default [] (mapGet noSkin c)
                               ++ default [] (mapGet2 bySkin skin c))).
  enough (∀ acc,
            (cat ∈ names →
             mapGet (fold_left f names acc) cat
             = Some (default [] (mapGet noSkin cat) ++ default [] (mapGet2 bySkin skin cat)))
            ∧ (cat ∉ names → mapGet (fold_left f names acc) cat = mapGet acc cat))
    as Hgen by apply (Hgen []).
  induction names as [|n names IH]; intros acc; simpl.
  - split; [by intros ?%elem_of_nil | done].
  - destruct (IH (f acc n)) as [IHin IHout]. split.
    + intros Hin. destruct (decide (cat ∈ names)) as [Hn|Hn]; [by apply IHin|].
      apply elem_of_cons in Hin as [->|Hin]; [|done].
      rewrite IHout by done. unfold f. rewrite mapGet_mapSet.
      by rewrite decide_True.
    + intros [Hne Hout]%not_elem_of_cons. rewrite IHout by done.
      unfold f. rewrite mapGet_mapSet. by rewrite decide_False.
Qed.

(** X4. [genSkinnedCategories(skin)] of the generated module gives, for each
    name of the category name list, the positions of the records of that
    category that have no skin information or have the given skin, the
    former first; a category that is not in the name list has no entry, so
    its records are in no skinned list. *)
Theorem skinned_categories_merge
    (additional : gmap string (list string)) (cats : list (string * list string))
    (excluded : list string) (data : list Emoji) (skin : string) :
  let out := generate additional cats excluded data in
  let st := emoji_jsx_index out in
  let result :=
    genSkinnedCategories (emoji_jsx_categoryNames out)
      (emojiIndicesByCategoryAndSkin st) (emojiIndicesByCategoryNoSkin st) skin in
  (∀ cat, cat ∈ emoji_jsx_categoryNames out →
     ∃ indices, mapGet result cat = Some indices
       ∧ indices = default [] (mapGet (emojiIndicesByCategoryNoSkin st) cat)
                   ++ default [] (mapGet2 (emojiIndicesByCategoryAndSkin st) skin cat)
       ∧ ∀ i, i ∈ indices
              ↔ ∃ t, emoji_json out !! i = Some t ∧ category t = cat
                     ∧ (hasSkin t = false ∨ hasSkin t = true ∧ skinOf t = skin))
  ∧ (∀ cat, cat ∉ emoji_jsx_categoryNames out → mapGet result cat = None).
Proof.
  intros out st result. subst out st result. split.
  - intros cat Hin. eexists. split.
    + by apply genSkinnedCategories_lookup.
    + split; [done|]. intros i.
      rewrite elem_of_app, noSkin_index_elem, bySkin_index_elem. split.
      * intros [(t & Ht & Hc & Hs) | (t & Ht & Hc & Hs & Hk)]; exists t; auto.
      * intros (t & Ht & Hc & [Hs | [Hs Hk]]); [left | right]; by exists t.
  - intros cat Hout. by apply genSkinnedCategories_lookup.
Qed.

(** The records of the dataset category [Component] are indexed by category
    but reach no skinned list: the name list leaves that category out. *)
Example component_category_not_skinned :
  let swatch :=
    sampleEmoji "LIGHT SKIN TONE" "skin-tone-2" ["skin-tone-2"] "Component"
                "1F3FB" "1f3fb.png" 3 0 1 None in
  let out := generate ∅ sampleCategories [] [swatch] in
  let st := emoji_jsx_index out in
  mapGet (emojiIndicesByCategory st) "component" = Some [0]
  ∧ mapGet (genSkinnedCategories (emoji_jsx_categoryNames out)
              (emojiIndicesByCategoryAndSkin st) (emojiIndicesByCategoryNoSkin st)
              "default") "component" = None.
Proof. split; vm_compute; reflexivity. Qed.

(** ** Code point index *)

Lemma forEachIndexed_byUnicode index st l :
  emojiIndicesByUnicode (forEachIndexed index st l)
  = emojiIndicesByUnicode st
    ++ concat (imap (λ j emoji,
                       if decide (unified emoji = "") then []
                       else [(toLowerCase (unified emoji), index + j)]) l).
Proof.
  revert index st. induction l as [|e l IH]; intros index st; simpl.
  - by rewrite app_nil_r.
  - rewrite IH. simpl. rewrite Nat.add_0_r.
    assert (∀ front : list (string * nat),
              front ++ concat (imap (λ j emoji,
                                 if decide (unified emoji = "") then []
                                 else [(toLowerCase (unified emoji), S (index + j))]) l)
              = front ++ concat (imap ((λ j emoji,
                                   if decide (unified emoji = "") then []
                                   else [(toLowerCase (unified emoji), index + j)]) ∘ S) l))
      as Hshift.
    { intros front. do 2 f_equal. apply imap_ext. intros j x _. simpl.
      by replace (index + S j) with (S (index + j)) by lia. }
    destruct (decide (unified e = "")); simpl.
    + apply Hshift.
    + rewrite <- app_assoc. simpl. f_equal. f_equal. apply (Hshift []).
Qed.

Lemma forEachIndexed_byUnicode_elem l code i :
  (code, i) ∈ emojiIndicesByUnicode (forEachIndexed 0 emptyIndexState l)
  ↔ ∃ r, l !! i = Some r ∧ unified r ≠ "" ∧ code = toLowerCase (unified r).
Proof.
  rewrite forEachIndexed_byUnicode. simpl. rewrite elem_of_concat. split.
  - intros (ps & (j & r & -> & Hj)%elem_of_lookup_imap & Hin).
    destruct (decide (unified r = "")) as [|Hne]; [by apply elem_of_nil in Hin|].
    apply list_elem_of_singleton in Hin as [= -> ->]. by exists r.
  - intros (r & Hr & Hne & ->). eexists. split.
    + apply elem_of_lookup_imap. by exists i, r.
    + simpl. rewrite decide_False by done. by apply list_elem_of_singleton.
Qed.

(** X5. The code point index pairs the lower-case code point of every
    record that has one with the record's position, and nothing else: a
    position has at most one pair, and no pair points to the built-in entry,
    whose code point is empty. *)
Theorem unicode_index_pairs
    (additional : gmap string (list string)) (cats : list (string * list string))
    (excluded : list string) (data : list Emoji) :
  let out := generate additional cats excluded data in
  let pairs := emojiIndicesByUnicode (emoji_jsx_index out) in
  (∀ code i, (code, i) ∈ pairs
             ↔ ∃ t, emoji_json out !! i = Some t ∧ unified t ≠ ""
                    ∧ code = toLowerCase (unified t))
  ∧ (∀ code code' i, (code, i) ∈ pairs → (code', i) ∈ pairs → code = code')
  ∧ (∀ code i, (code, i) ∈ pairs →
       emoji_json out !! i ≠ Some (trimPropertiesFromEmoji (markEmoji mattermostEmoji))).
Proof.
  intros out pairs. subst out pairs.
  assert (∀ code i,
            (code, i) ∈ emojiIndicesByUnicode
                          (emoji_jsx_index (generate additional cats excluded data))
            ↔ ∃ t, emoji_json (generate additional cats excluded data) !! i = Some t
                   ∧ unified t ≠ "" ∧ code = toLowerCase (unified t)) as Hpairs.
  { intros code i. rewrite emoji_jsx_index_generate, forEachIndexed_byUnicode_elem.
    split.
    - intros (r & Hr & Hne & ->).
      eexists. split; [apply emoji_json_lookup; by exists r|]. done.
    - intros (t & (r & Hr & ->)%emoji_json_lookup & Hne & ->). by exists r. }
  split; [done|]. split.
  - intros code code' i (t & Ht & _ & ->)%Hpairs (t' & Ht' & _ & ->)%Hpairs.
    congruence.
  - intros code i (t & Ht & Hne & _)%Hpairs Hbuiltin.
    rewrite Hbuiltin in Ht. injection Ht as <-. done.
Qed.

(** ** Category and skin names *)

Lemma setAdd_elem {K} `{EqDecision K} (s : list K) (x y : K) :
  y ∈ setAdd s x ↔ y = x ∨ y ∈ s.
Proof.
  unfold setAdd. destruct (decide (x ∈ s)) as [Hin|Hout].
  - split; [by right | by intros [->|?]].
  - rewrite elem_of_app, list_elem_of_singleton. tauto.
Qed.

Lemma forEachIndexed_categoryNamesSet index st l cat :
  cat ∈ categoryNamesSet (forEachIndexed index st l)
  ↔ cat ∈ categoryNamesSet st
    ∨ ∃ emoji, emoji ∈ l ∧ convertCategory (category emoji) = cat.
Proof.
  revert index st. induction l as [|e l IH]; intros index st; simpl.
  - split; [by left | intros [?|(? & ?%elem_of_nil & _)]; done].
  - rewrite IH. simpl. rewrite setAdd_elem. split.
    + intros [[->|Hst] | (x & Hx & Hc)].
      * right. exists e. split; [left | done].
      * by left.
      * right. exists x. split; [by right | done].
    + intros [Hst | (x & [->|Hx]%elem_of_cons & Hc)].
      * left. by right.
      * left. by left.
      * right. by exists x.
Qed.

Lemma forEachIndexed_skinset index st l skin :
  skin ∈ skinset (forEachIndexed index st l)
  ↔ skin ∈ skinset st
    ∨ ∃ emoji, emoji ∈ l ∧ hasSkin emoji = true ∧ skinOf emoji = skin.
Proof.
  revert index st. induction l as [|e l IH]; intros index st; simpl.
  - split; [by left | intros [?|(? & ?%elem_of_nil & _)]; done].
  - rewrite IH. simpl. split.
    + intros [Hst | (x & Hx & Hc)].
      * destruct (hasSkin e) eqn:Hs; [|by left].
        apply setAdd_elem in Hst as [->|Hst]; [|by left].
        right. exists e. split; [left | done].
      * right. exists x. split; [by right | done].
    + intros [Hst | (x & [->|Hx]%elem_of_cons & Hs & Hc)].
      * left. destruct (hasSkin e); [|done]. apply setAdd_elem. by right.
      * left. rewrite Hs. apply setAdd_elem. by left.
      * right. by exists x.
Qed.

Lemma setAdd_mapSet_keys {K V} `{EqDecision K} (m : JsMap K V) (k : K) (v : V) :
  setAdd (m.*1) k = (mapSet m k v).*1.
Proof.
  destruct (mapSet_key_order m k v) as [Hin Hout]. unfold setAdd.
  destruct (decide (k ∈ m.*1)); [by rewrite Hin | by rewrite Hout].
Qed.

Lemma mapSet_keys_eq {K V W} `{EqDecision K}
    (m : JsMap K V) (m' : JsMap K W) (k : K) (v : V) (w : W) :
  m.*1 = m'.*1 → (mapSet m k v).*1 = (mapSet m' k w).*1.
Proof.
  intros Heq. rewrite <- !setAdd_mapSet_keys. by rewrite Heq.
Qed.

Lemma indexEmoji_keysInStep st index emoji :
  keysInStep st → keysInStep (indexEmoji st index emoji).
Proof.
  intros (Hnames & Htrans & Hskins & Hnd & Hnd'). unfold keysInStep. simpl.
  unfold addIndexToMap. split; [|split; [|split; [|split]]].
  - rewrite Hnames. apply setAdd_mapSet_keys.
  - by apply mapSet_keys_eq.
  - destruct (hasSkin emoji); [|done]. rewrite Hskins. apply setAdd_mapSet_keys.
  - by apply mapSet_NoDup.
  - destruct (hasSkin emoji); [|done]. by apply mapSet_NoDup.
Qed.

Lemma forEachIndexed_keysInStep index st l :
  keysInStep st → keysInStep (forEachIndexed index st l).
Proof.
  revert index st. induction l as [|e l IH]; intros index st Hst; simpl; [done|].
  apply IH. by apply indexEmoji_keysInStep.
Qed.

(** X6. The set of category names, the keys of the category index and the
    keys of the category label table are one list without repetition, in
    order of first appearance, and so are the skin set and the keys of the
    skin index; a name is in the category list exactly when some record of
    the JSON array has that category, and a skin is in the skin set exactly
    when some record with skin information has that skin. *)
Theorem category_and_skin_keys_agree
    (additional : gmap string (list string)) (cats : list (string * list string))
    (excluded : list string) (data : list Emoji) :
  let out := generate additional cats excluded data in
  let st := emoji_jsx_index out in
  categoryNamesSet st = (emojiIndicesByCategory st).*1
  ∧ (categoryDefaultTranslation st).*1 = categoryNamesSet st
  ∧ skinset st = (emojiIndicesByCategoryAndSkin st).*1
  ∧ NoDup (categoryNamesSet st) ∧ NoDup (skinset st)
  ∧ (∀ cat, cat ∈ categoryNamesSet st
            ↔ ∃ t, t ∈ emoji_json out ∧ category t = cat)
  ∧ (∀ skin, skin ∈ skinset st
             ↔ ∃ t, t ∈ emoji_json out ∧ hasSkin t = true ∧ skinOf t = skin).
Proof.
  intros out st. subst out st. rewrite emoji_jsx_index_generate.
  destruct (forEachIndexed_keysInStep 0 emptyIndexState
              (fullEmojiSorted additional excluded data))
    as (Hnames & Htrans & Hskins & Hnd & Hnd').
  { unfold keysInStep. simpl. repeat split; constructor. }
  split; [done|]. split; [congruence|]. split; [done|].
  split; [by rewrite Hnames|]. split; [by rewrite Hskins|]. split.
  - intros cat. rewrite forEachIndexed_categoryNamesSet. simpl. split.
    + intros [?%elem_of_nil | (r & Hr & Hc)]; [done|].
      exists (trimPropertiesFromEmoji (markEmoji r)). split; [|done].
      unfold generate. simpl. by do 2 apply list_elem_of_fmap_2.
    + intros (t & Ht & Hc). right. unfold generate in Ht. simpl in Ht.
      apply list_elem_of_fmap in Ht as (m & -> & Hm).
      apply list_elem_of_fmap in Hm as (r & -> & Hr). by exists r.
  - intros skin. rewrite forEachIndexed_skinset. simpl. split.
    + intros [?%elem_of_nil | (r & Hr & Hs & Hk)]; [done|].
      exists (trimPropertiesFromEmoji (markEmoji r)). split; [|done].
      unfold generate. simpl. by do 2 apply list_elem_of_fmap_2.
    + intros (t & Ht & Hs & Hk). right. unfold generate in Ht. simpl in Ht.
      apply list_elem_of_fmap in Ht as (m & -> & Hm).
      apply list_elem_of_fmap in Hm as (r & -> & Hr). by exists r.
Qed.

(** ** Stylesheet rules *)

Lemma lastPosition_is_Some file l :
  is_Some (lastPosition file l)
  ↔ ∃ emoji, emoji ∈ l ∧ convertCategory (category emoji) ≠ "custom"
             ∧ filename emoji = file.
Proof.
  induction l as [|e l IH]; simpl.
  - split; [by intros [? ?] | by intros (? & ?%elem_of_nil & _)].
  - destruct (lastPosition file l) as [pos|].
    + split; [|by eauto]. intros _.
      destruct (proj1 IH) as (x & Hx & Hrest); [by eauto|].
      exists x. split; [by right | done].
    + destruct (decide (convertCategory (category e) = "custom")) as [Hc|Hc].
      * split; [by intros [? ?]|].
        intros (x & [->|Hx]%elem_of_cons & Hcx & Hf); [done|].
        apply IH. by exists x.
      * destruct (decide (filename e = file)) as [Hf|Hf].
        -- split; [|by eauto]. intros _. exists e. split; [left | done].
        -- split; [by intros [? ?]|].
           intros (x & [->|Hx]%elem_of_cons & Hcx & Hfx); [done|].
           apply IH. by exists x.
Qed.

Lemma forEachIndexed_positions_NoDup index st l :
  NoDup ((emojiFilePositions st).*1) →
  NoDup ((emojiFilePositions (forEachIndexed index st l)).*1).
Proof.
  revert index st. induction l as [|e l IH]; intros index st Hnd; simpl; [done|].
  apply IH. simpl.
  destruct (decide (convertCategory (category e) = "custom")); [done|].
  by apply mapSet_NoDup.
Qed.

(** X7. The stylesheet has one position rule per distinct image base name
    of the records whose category is not [custom]: the keys of the position
    table are pairwise distinct, a name is a key exactly when such a record
    has it, and there are as many rules as keys. *)
Theorem one_position_rule_per_base_name
    (additional : gmap string (list string)) (cats : list (string * list string))
    (excluded : list string) (data : list Emoji) :
  let out := generate additional cats excluded data in
  let positions := emojiFilePositions (emoji_jsx_index out) in
  NoDup (positions.*1)
  ∧ (∀ key, key ∈ positions.*1
            ↔ ∃ t, t ∈ emoji_json out ∧ image t = key ∧ category t ≠ "custom")
  ∧ length (emojisprite_emojis out) = length (positions.*1).
Proof.
  intros out positions. subst out positions. split; [|split].
  - rewrite emoji_jsx_index_generate.
    apply forEachIndexed_positions_NoDup. constructor.
  - intros key. rewrite <- mapGet_is_Some, emoji_jsx_index_generate.
    rewrite forEachIndexed_positions.
    assert (is_Some match lastPosition key (fullEmojiSorted additional excluded data) with
                    | Some pos => Some pos
                    | None => mapGet (emojiFilePositions emptyIndexState) key
                    end
            ↔ is_Some (lastPosition key (fullEmojiSorted additional excluded data)))
      as -> by (by destruct (lastPosition key _)).
    rewrite lastPosition_is_Some. split.
    + intros (r & Hr & Hc & Hf).
      exists (trimPropertiesFromEmoji (markEmoji r)). split; [|done].
      unfold generate. simpl. by do 2 apply list_elem_of_fmap_2.
    + intros (t & Ht & Hf & Hc). unfold generate in Ht. simpl in Ht.
      apply list_elem_of_fmap in Ht as (m & -> & Hm).
      apply list_elem_of_fmap in Hm as (r & -> & Hr). by exists r.
  - unfold generate. simpl. unfold cssEmojis. by rewrite !length_fmap.
Qed.

(** ** The Go table *)



(** ** The built-in entry in the output *)

(** X9. Whatever the dataset and the exclusion list, the JSON array holds
    the built-in entry, named [Mattermost], with the one alias [mattermost],
    category [custom], image [mattermost] and file name [mattermost.png],
    and its alias is paired with its position; the array has one record per
    kept dataset record, one per skin-variation entry of a kept record, and
    this one. On a dataset whose records all carry a sort key and whose
    skin variations carry none, the built-in entry is the last record. *)
Theorem builtin_entry_in_output
    (additional : gmap string (list string)) (cats : list (string * list string))
    (excluded : list string) (data : list Emoji) :
  let out := generate additional cats excluded data in
  let kept := filteredEmojiJson excluded data in
  let builtin :=
    {| name := "Mattermost"; unified := ""; image := "mattermost";
       short_name := "mattermost"; short_names := ["mattermost"];
       category := "custom"; sort_order := None;
       sheet_x := None; sheet_y := None;
       skin_variations := None; skins := None;
       fileName := Some "mattermost.png"; others := [] |} in
  (∃ i, emoji_json out !! i = Some builtin
        ∧ ("mattermost", i) ∈ emojiIndicesByAlias (emoji_jsx_index out))
  ∧ length (emoji_json out)
    = length kept
      + sum_list ((λ emoji, length (default [] (skin_variations emoji))) <$> kept)
      + 1
  ∧ (Forall (λ e, is_Some (sort_order e)) data →
     Forall (λ e, ∀ table, skin_variations e = Some table →
                           Forall (λ kv, var_sort_order kv.2 = None) table) data →
     ∃ front, emoji_json out = front ++ [builtin]
              ∧ ("mattermost", length front)
                  ∈ emojiIndicesByAlias (emoji_jsx_index out)).
Proof.
  intros out kept builtin. subst out kept builtin.
  assert (length (fullEmojiSorted additional excluded data)
          = length (filteredEmojiJson excluded data)
            + sum_list ((λ emoji, length (default [] (skin_variations emoji)))
                          <$> filteredEmojiJson excluded data) + 1) as Hlen.
  { unfold fullEmojiSorted.
    rewrite (Permutation_length (jsSort_perm compareSortOrder _)).
    unfold fullEmojiUnsorted. rewrite length_app, length_fmap.
    by rewrite populateSkinTones_length. }
  split; [|split].
  - assert (mattermostEmoji ∈ fullEmojiSorted additional excluded data) as Hin.
    { apply elem_of_fullEmojiSorted, elem_of_fullEmojiUnsorted. by left. }
    apply list_elem_of_lookup_1 in Hin as [i Hi]. exists i. split.
    + apply (emoji_json_lookup additional cats excluded data i). by eexists.
    + rewrite emoji_jsx_index_generate. apply forEachIndexed_byAlias_elem.
      exists mattermostEmoji. split; [done | left].
  - unfold generate. simpl. by rewrite !length_fmap.
  - intros _ Hvars.
    destruct (keyless_records_stay additional excluded data Hvars) as [Heq _].
    rewrite app_assoc in Heq.
    set (front := jsSort compareSortOrder
                    (addShortnames additional <$> filteredEmojiJson excluded data)
                  ++ (addShortnames additional
                        <$> flat_map genSkinVariations (filteredEmojiJson excluded data)))
      in Heq.
    exists (trimPropertiesFromEmoji <$> (markEmoji <$> front)). split.
    + unfold generate. cbn [emoji_json]. rewrite Heq. by rewrite !fmap_app.
    + rewrite emoji_jsx_index_generate. apply forEachIndexed_byAlias_elem.
      exists mattermostEmoji. split; [|left].
      rewrite !length_fmap, Heq. by apply list_lookup_middle.
Qed.

Example builtin_entry_last_on_sample :
  last (emoji_json (generate sampleShortnames sampleCategories [] sampleData))
  = Some (trimPropertiesFromEmoji (markEmoji mattermostEmoji)).
Proof. vm_compute. reflexivity. Qed.

(** ** Trimming in the output *)

Lemma trimmed_others kv emoji :
  kv ∈ others (trimPropertiesFromEmoji emoji)
  ↔ kv ∈ others emoji ∧ kv.1 ∉ trimmedProperties.
Proof.
  simpl. rewrite list_elem_of_In, filter_In, <- list_elem_of_In.
  rewrite negb_true_iff, bool_decide_eq_false. done.
Qed.

Lemma filter_filter_same {A} (f : A → bool) (l : list A) :
  List.filter f (List.filter f l) = List.filter f l.
Proof.
  induction l as [|x l IH]; simpl; [done|].
  destruct (f x) eqn:Hx; simpl; [|done]. by rewrite Hx, IH.
Qed.

Lemma trimPropertiesFromEmoji_idemp emoji :
  trimPropertiesFromEmoji (trimPropertiesFromEmoji emoji)
  = trimPropertiesFromEmoji emoji.
Proof.
  unfold trimPropertiesFromEmoji. simpl. f_equal. apply filter_filter_same.
Qed.

(** X10. Trimming is shallow and removes only the listed properties: the
    JSON record at each position has no sort key and no sheet coordinates,
    keeps every other property of the sorted record whose name is not
    listed, and keeps the record's code point, names, aliases, skins and
    skin-variation table as they were, so the entries of that table still
    carry their own sheet coordinates. *)
Theorem trimmed_json_keeps_unlisted
    (additional : gmap string (list string)) (cats : list (string * list string))
    (excluded : list string) (data : list Emoji) (i : nat) (t : Emoji) :
  emoji_json (generate additional cats excluded data) !! i = Some t →
  ∃ r, fullEmojiSorted additional excluded data !! i = Some r
       ∧ sort_order t = None ∧ sheet_x t = None ∧ sheet_y t = None
       ∧ (∀ kv, kv ∈ others t ↔ kv ∈ others r ∧ kv.1 ∉ trimmedProperties)
       ∧ name t = name r ∧ unified t = unified r
       ∧ short_name t = short_name r ∧ short_names t = short_names r
       ∧ skins t = skins r ∧ skin_variations t = skin_variations r
       ∧ trimPropertiesFromEmoji t = t.
Proof.
  intros (r & Hr & ->)%emoji_json_lookup. exists r.
  split; [done|]. do 3 (split; [done|]).
  split; [intros kv; apply (trimmed_others kv (markEmoji r))|].
  do 6 (split; [done|]).
  apply trimPropertiesFromEmoji_idemp.
Qed.

Lemma trimmed_json_keeps_unlisted_witness :
  emoji_json (generate sampleShortnames sampleCategories [] sampleData) !! 0
  = Some (trimPropertiesFromEmoji (markEmoji thumbsup))
  ∧ ∃ r, fullEmojiSorted sampleShortnames [] sampleData !! 0 = Some r
       ∧ sort_order (trimPropertiesFromEmoji (markEmoji thumbsup)) = None
       ∧ sheet_x (trimPropertiesFromEmoji (markEmoji thumbsup)) = None
       ∧ sheet_y (trimPropertiesFromEmoji (markEmoji thumbsup)) = None
       ∧ (∀ kv, kv ∈ others (trimPropertiesFromEmoji (markEmoji thumbsup))
                ↔ kv ∈ others r ∧ kv.1 ∉ trimmedProperties)
       ∧ name (trimPropertiesFromEmoji (markEmoji thumbsup)) = name r
       ∧ unified (trimPropertiesFromEmoji (markEmoji thumbsup)) = unified r
       ∧ short_name (trimPropertiesFromEmoji (markEmoji thumbsup)) = short_name r
       ∧ short_names (trimPropertiesFromEmoji (markEmoji thumbsup)) = short_names r
       ∧ skins (trimPropertiesFromEmoji (markEmoji thumbsup)) = skins r
       ∧ skin_variations (trimPropertiesFromEmoji (markEmoji thumbsup))
         = skin_variations r
       ∧ trimPropertiesFromEmoji (trimPropertiesFromEmoji (markEmoji thumbsup))
         = trimPropertiesFromEmoji (markEmoji thumbsup).
Proof.
  split; [vm_compute; reflexivity|].
  apply (trimmed_json_keeps_unlisted sampleShortnames sampleCategories [] sampleData 0).
  vm_compute. reflexivity.
Defined.

(** ** The exclusion filter *)

Lemma isExcluded_app excluded1 excluded2 emoji :
  isExcluded (excluded1 ++ excluded2) emoji
  = isExcluded excluded1 emoji || isExcluded excluded2 emoji.
Proof. unfold isExcluded. apply existsb_app. Qed.

(** X11. Filtering keeps the dataset's order and never adds a record, and
    filtering by one list and then by another is filtering by the two lists
    put together. *)
Theorem filter_keeps_order_and_composes
    (excluded1 excluded2 : list string) (data : list Emoji) :
  filteredEmojiJson excluded1 data `sublist_of` data
  ∧ filteredEmojiJson excluded2 (filteredEmojiJson excluded1 data)
    = filteredEmojiJson (excluded1 ++ excluded2) data
  ∧ filteredEmojiJson (excluded1 ++ excluded2) data
    `sublist_of` filteredEmojiJson excluded1 data.
Proof.
  assert (∀ excluded l, filteredEmojiJson excluded l `sublist_of` l) as Hsub.
  { intros excluded l. unfold filteredEmojiJson.
    induction l as [|e l IH]; simpl; [done|].
    destruct (negb (isExcluded excluded e)); by constructor. }
  assert (filteredEmojiJson excluded2 (filteredEmojiJson excluded1 data)
          = filteredEmojiJson (excluded1 ++ excluded2) data) as Hcomp.
  { unfold filteredEmojiJson. induction data as [|e l IH]; simpl; [done|].
    rewrite isExcluded_app.
    destruct (isExcluded excluded1 e); simpl; [done|].
    destruct (isExcluded excluded2 e); simpl; [done|]. by f_equal. }
  split; [apply Hsub|]. split; [done|]. rewrite <- Hcomp. apply Hsub.
Qed.

(** X12. An entry of the exclusion list that is no short name of any dataset
    record changes nothing: an empty line, the alias of a skin variation or
    an alias that only the compatibility table adds excludes no record. *)
Theorem unmatched_exclusions_are_inert
    (excluded extra : list string) (data : list Emoji) :
  (∀ emoji s, emoji ∈ data → s ∈ short_names emoji → s ∉ extra) →
  filteredEmojiJson (excluded ++ extra) data = filteredEmojiJson excluded data.
Proof.
  intros Hinert. unfold filteredEmojiJson.
  induction data as [|e l IH]; simpl; [done|].
  assert (isExcluded extra e = false) as Hfalse.
  { apply not_true_is_false. intros (s & Hs & Hin)%isExcluded_spec.
    by apply (Hinert e s); [left|..]. }
  rewrite isExcluded_app, Hfalse, orb_false_r.
  rewrite IH; [done|]. intros emoji s Hin. apply Hinert. by right.
Qed.

Lemma unmatched_exclusions_are_inert_witness :
  filteredEmojiJson (["grinning"] ++ [""; "+1_light_skin_tone"; "grinning_face"])
                    sampleData
  = filteredEmojiJson ["grinning"] sampleData.
Proof.
  apply (unmatched_exclusions_are_inert
           ["grinning"] [""; "+1_light_skin_tone"; "grinning_face"] sampleData).
  intros emoji s Hin Hs Hextra.
  apply list_elem_of_In in Hin. apply list_elem_of_In in Hs.
  apply list_elem_of_In in Hextra. simpl in Hin, Hextra.
  destruct Hin as [<- | [<- | []]]; simpl in Hs;
    repeat (destruct Hs as [<- | Hs]; [intuition discriminate|]); done.
Defined.

(** ** Lines of the exclusion file *)

Lemma splitLines_not_nil s : splitLines s ≠ [].
Proof.
  induction s as [|c s IH]; simpl; [done|].
  destruct (decide (c = LF)); [done|].
  destruct (bool_decide (c = CR) && startsWithLF s); [done|].
  by destruct (splitLines s).
Qed.

Lemma append_empty_l (s : string) : "" +:+ s = s.
Proof. reflexivity. Qed.

Lemma append_String c (a b : string) : String c a +:+ b = String c (a +:+ b).
Proof. reflexivity. Qed.

Lemma splitLines_prepend line rest :
  plainLine line →
  splitLines (line +:+ rest)
  = match splitLines rest with
    | piece :: pieces => (line +:+ piece) :: pieces
    | [] => [line]
    end.
Proof.
  intros [Hlf Hcr].
  induction line as [|c line IH]; rewrite ?append_empty_l, ?append_String; simpl in *.
  - pose proof (splitLines_not_nil rest).
    destruct (splitLines rest); [done | by rewrite append_empty_l].
  - apply orb_false_elim in Hlf as [Hc1%bool_decide_eq_false Hlf].
    apply orb_false_elim in Hcr as [Hc2%bool_decide_eq_false Hcr].
    rewrite decide_False by done.
    rewrite (bool_decide_eq_false_2 (c = CR)) by done. simpl.
    rewrite IH by done.
    pose proof (splitLines_not_nil rest).
    destruct (splitLines rest); [done | by rewrite append_String].
Qed.

Lemma append_empty_r (s : string) : s +:+ "" = s.
Proof.
  induction s as [|c s IH]; [done|]. by rewrite append_String, IH.
Qed.

Lemma join_cons_cons sep (a b : string) l :
  join sep (a :: b :: l) = a +:+ sep +:+ join sep (b :: l).
Proof. done. Qed.

(** X13. A file of lines without carriage return or line feed gives back
    exactly those lines, whether the lines are separated by a line feed or
    by a carriage return and a line feed; the last line is what follows the
    last separator, so a file that ends with a separator gives an empty last
    entry. *)
Theorem exclusion_lines_roundtrip (lines : list string) :
  lines ≠ [] → Forall plainLine lines →
  splitLines (join newline lines) = lines
  ∧ splitLines (join (String CR newline) lines) = lines.
Proof.
  intros Hne Hplain. induction Hplain as [|line rest Hline Hrest IH]; [done|].
  destruct rest as [|line2 rest].
  - simpl. rewrite <- (append_empty_r line) at 1 3.
    rewrite splitLines_prepend by done. simpl. by rewrite append_empty_r.
  - destruct IH as [IHlf IHcrlf]; [done|].
    rewrite !join_cons_cons. split.
    + rewrite splitLines_prepend by done. unfold newline at 1.
      change (splitLines (String LF "" +:+ join newline (line2 :: rest)))
        with ("" :: splitLines (join newline (line2 :: rest))).
      by rewrite IHlf, append_empty_r.
    + rewrite splitLines_prepend by done.
      change (splitLines (String CR newline +:+ join (String CR newline) (line2 :: rest)))
        with ("" :: splitLines (join (String CR newline) (line2 :: rest))).
      by rewrite IHcrlf, append_empty_r.
Qed.

Lemma exclusion_lines_roundtrip_witness :
  splitLines (join newline ["thumbsup"; "grinning"; ""]) = ["thumbsup"; "grinning"; ""]
  ∧ splitLines (join (String CR newline) ["thumbsup"; "grinning"; ""])
    = ["thumbsup"; "grinning"; ""].
Proof.
  apply (exclusion_lines_roundtrip ["thumbsup"; "grinning"; ""]); [done|].
  repeat constructor.
Defined.

(** ** Category normalization *)

Lemma toLowerCase_app a b : toLowerCase (a +:+ b) = toLowerCase a +:+ toLowerCase b.
Proof.
  induction a as [|c a IH]; [done|].
  rewrite append_String. simpl. by rewrite IH, append_String.
Qed.

Lemma lowerAscii_ampersand c :
  bool_decide (lowerAscii c = "&"%char) = bool_decide (c = "&"%char).
Proof. destruct c as [[] [] [] [] [] [] [] []]; vm_compute; reflexivity. Qed.

Lemma hasChar_toLowerCase_ampersand s :
  hasChar "&" (toLowerCase s) = hasChar "&" s.
Proof.
  induction s as [|c s IH]; simpl; [done|]. by rewrite lowerAscii_ampersand, IH.
Qed.

Lemma prefix_String a s1 b s2 :
  String.prefix (String a s1) (String b s2)
  = if ascii_dec a b then String.prefix s1 s2 else false.
Proof. reflexivity. Qed.

Lemma replace_String pat rep c s :
  replace pat rep (String c s)
  = if String.prefix pat (String c s)
    then rep +:+ dropChars (String.length pat) (String c s)
    else String c (replace pat rep s).
Proof. reflexivity. Qed.

(** [" & "] does not start where the next two characters hold no ampersand
    in second place. *)
Lemma prefix_ampersand_false c s tail :
  c ≠ "&"%char → hasChar "&" s = false →
  String.prefix " & " (String c (s +:+ " & " +:+ tail)) = false
  ∧ String.prefix " & " (String c s) = false.
Proof.
  intros Hc Hs. rewrite !prefix_String.
  destruct (ascii_dec " " c) as [<-|]; [|done].
  destruct s as [|d s].
  - rewrite append_empty_l. split; reflexivity.
  - simpl in Hs. apply orb_false_elim in Hs as [Hd%bool_decide_eq_false _].
    rewrite append_String, !prefix_String.
    destruct (ascii_dec "&" d) as [<-|]; done.
Qed.

Lemma replace_ampersand_absent s :
  hasChar "&" s = false → replace " & " "-" s = s.
Proof.
  induction s as [|c s IH]; [done|]. intros Hno. simpl in Hno.
  apply orb_false_elim in Hno as [Hc%bool_decide_eq_false Hs].
  rewrite replace_String.
  destruct (prefix_ampersand_false c s "" Hc Hs) as [_ ->].
  by rewrite IH.
Qed.

Lemma replace_first_ampersand a rest :
  hasChar "&" a = false →
  replace " & " "-" (a +:+ " & " +:+ rest) = a +:+ "-" +:+ rest.
Proof.
  induction a as [|c a IH].
  { intros _. rewrite !append_empty_l, !append_String, append_empty_l.
    rewrite replace_String.
    assert (String.prefix " & " (String " " (String "&" (String " " rest))) = true)
      as -> by (by destruct rest).
    reflexivity. }
  intros Hno. simpl in Hno.
  apply orb_false_elim in Hno as [Hc%bool_decide_eq_false Ha].
  rewrite !(append_String c a), replace_String.
  destruct (prefix_ampersand_false c a rest Hc Ha) as [-> _].
  by rewrite IH.
Qed.

(** X14. Category normalization lowers the ASCII letters and replaces the
    first [" & "] only: a name without ampersand is just lowered, and a name
    whose first ampersand is in [" & "] gets a hyphen there while whatever
    follows, further [" & "] included, is only lowered. *)
Theorem convertCategory_first_ampersand (a b : string) :
  hasChar "&" a = false →
  convertCategory a = toLowerCase a
  ∧ convertCategory (a +:+ " & " +:+ b) = toLowerCase a +:+ "-" +:+ toLowerCase b.
Proof.
  intros Hno. unfold convertCategory. split.
  - apply replace_ampersand_absent. by rewrite hasChar_toLowerCase_ampersand.
  - rewrite !toLowerCase_app.
    change (toLowerCase " & ") with " & ".
    apply replace_first_ampersand. by rewrite hasChar_toLowerCase_ampersand.
Qed.

Lemma convertCategory_first_ampersand_witness :
  convertCategory "Smileys" = "smileys"
  ∧ convertCategory ("Smileys" +:+ " & " +:+ "People & Body") = "smileys-people & body".
Proof.
  apply (convertCategory_first_ampersand "Smileys" "People & Body"). reflexivity.
Defined.

(** ** Skin variations in the output *)

Lemma addShortnames_kept additional emoji :
  category (addShortnames additional emoji) = category emoji
  ∧ skins (addShortnames additional emoji) = skins emoji
  ∧ skin_variations (addShortnames additional emoji) = skin_variations emoji.
Proof. rewrite !addShortnames_eq. by destruct (additional !! short_name emoji). Qed.

(** X15. The exclusion list cannot remove a single skin variation: when a
    dataset record is kept, each entry of its skin-variation table gives a
    record of the JSON array, whatever the list says about the variation's
    own aliases, and that record is filed in the skin index under the first
    code of the entry's key ([default] when that code is empty) and the
    category of the base record. *)
Theorem kept_record_variations_are_filed
    (additional : gmap string (list string)) (cats : list (string * list string))
    (excluded : list string) (data : list Emoji)
    (base : Emoji) (table : list (string * Variation)) (entry : string * Variation) :
  base ∈ data → ¬ intersects excluded base →
  skin_variations base = Some table → entry ∈ table →
  let out := generate additional cats excluded data in
  let first := hd "" (split "-" entry.1) in
  let skin := if decide (first = "") then "default" else first in
  ∃ i, emoji_json out !! i
       = Some (trimPropertiesFromEmoji
                 (markEmoji (addShortnames additional (genSkinVariation base entry))))
       ∧ i ∈ default [] (mapGet2 (emojiIndicesByCategoryAndSkin (emoji_jsx_index out))
                                 skin (convertCategory (category base))).
Proof.
  intros Hbase Hkept Htable Hentry out first skin. subst out first skin.
  assert (addShortnames additional (genSkinVariation base entry)
            ∈ fullEmojiSorted additional excluded data) as Hin.
  { apply elem_of_fullEmojiSorted, elem_of_fullEmojiUnsorted. right.
    exists base, (genSkinVariation base entry). split; [done|]. split; [done|].
    split; [|done]. right. unfold genSkinVariations. rewrite Htable.
    by apply list_elem_of_fmap_2. }
  apply list_elem_of_lookup_1 in Hin as [i Hi]. exists i.
  assert (emoji_json (generate additional cats excluded data) !! i
          = Some (trimPropertiesFromEmoji
                    (markEmoji (addShortnames additional (genSkinVariation base entry)))))
    as Hjson by (apply emoji_json_lookup; by eexists).
  split; [done|]. apply bySkin_index_elem. eexists. split; [exact Hjson|].
  destruct (addShortnames_kept additional (genSkinVariation base entry))
    as (Hc & Hs & Hv).
  split; [simpl; by rewrite Hc|]. split.
  - rewrite hasSkin_final. unfold hasSkin. by rewrite Hs.
  - rewrite skinOf_final. unfold skinOf. rewrite Hs. simpl.
    pose proof (split_not_nil "-" entry.1).
    by destruct (split "-" entry.1).
Qed.

Lemma kept_record_variations_are_filed_witness :
  ∃ i, emoji_json (generate sampleShortnames sampleCategories
                            ["+1_light_skin_tone"] sampleData) !! i
       = Some (trimPropertiesFromEmoji
                 (markEmoji (addShortnames sampleShortnames thumbsupLight)))
       ∧ i ∈ default []
               (mapGet2 (emojiIndicesByCategoryAndSkin
                           (emoji_jsx_index
                              (generate sampleShortnames sampleCategories
                                        ["+1_light_skin_tone"] sampleData)))
                        "1F3FB" (convertCategory (category thumbsup))).
Proof.
  apply (kept_record_variations_are_filed
           sampleShortnames sampleCategories ["+1_light_skin_tone"] sampleData
           thumbsup
           [("1F3FB", sampleVariation "1F44D-1F3FB" "1f44d-1f3fb.png" 1 3);
            ("1F3FF", sampleVariation "1F44D-1F3FF" "1f44d-1f3ff.png" 1 4)]
           ("1F3FB", sampleVariation "1F44D-1F3FB" "1f44d-1f3fb.png" 1 3)).
  - right. left.
  - intros Hx%isExcluded_spec. vm_compute in Hx. discriminate.
  - reflexivity.
  - left.
Defined.

(** ** Order of the output on a keyed dataset *)

Lemma sorted_keyed_then_keyless_witness :
  fullEmojiSorted sampleShortnames [] sampleData
  = jsSort compareSortOrder
      (addShortnames sampleShortnames <$> filteredEmojiJson [] sampleData)
    ++ (addShortnames sampleShortnames
          <$> flat_map genSkinVariations (filteredEmojiJson [] sampleData))
    ++ [mattermostEmoji]
  ∧ StronglySorted (λ a b, keyOrZero a ≤ keyOrZero b)%Z
      (jsSort compareSortOrder
         (addShortnames sampleShortnames <$> filteredEmojiJson [] sampleData)).
Proof.
  apply (sorted_keyed_then_keyless sampleShortnames [] sampleData).
  - repeat constructor; by eexists.
  - repeat constructor; intros table [= <-]; repeat constructor.
Defined.

(** ** The alias map of the generated module *)

Lemma newMap_last_entry {K V} `{EqDecision K}
    (before after : list (K * V)) (k : K) (v : V) :
  k ∉ after.*1 → mapGet (newMap (before ++ (k, v) :: after)) k = Some v.
Proof.
  intros Hafter. unfold newMap. rewrite fold_left_app. simpl.
  generalize (fold_left (λ m kv, mapSet m kv.1 kv.2) before ([] : JsMap K V)).
  intros acc.
  enough (∀ m, mapGet m k = Some v
               → mapGet (fold_left (λ m kv, mapSet m kv.1 kv.2) after m) k = Some v)
    as Hgen.
  { apply Hgen. rewrite mapGet_mapSet. by rewrite decide_True. }
  induction after as [|[k0 v0] after IH]; intros m Hm; simpl; [done|].
  simpl in Hafter. apply not_elem_of_cons in Hafter as [Hne Hafter].
  apply IH; [done|]. rewrite mapGet_mapSet. by rewrite decide_False.
Qed.

Lemma aliasPairs_split l i r :
  l !! i = Some r →
  emojiIndicesByAlias (forEachIndexed 0 emptyIndexState l)
  = emojiIndicesByAlias (forEachIndexed 0 emptyIndexState (take i l))
    ++ ((λ alias, (alias, i)) <$> short_names r)
    ++ emojiIndicesByAlias (forEachIndexed (S i) emptyIndexState (drop (S i) l)).
Proof.
  intros Hi. rewrite <- (take_drop_middle l i r Hi) at 1.
  rewrite forEachIndexed_app. simpl.
  assert (length (take i l) = i) as ->.
  { rewrite length_take. apply lookup_lt_Some in Hi. lia. }
  rewrite (forEachIndexed_byAlias (S i)). simpl.
  rewrite (forEachIndexed_byAlias (S i) emptyIndexState). simpl.
  by rewrite <- app_assoc.
Qed.

Lemma aliasPairs_keys index l alias :
  alias ∈ (emojiIndicesByAlias (forEachIndexed index emptyIndexState l)).*1 →
  ∃ j r, l !! j = Some r ∧ alias ∈ short_names r.
Proof.
  rewrite forEachIndexed_byAlias. simpl.
  intros ([a k] & -> & Hin)%list_elem_of_fmap.
  apply elem_of_concat in Hin as (ps & (j & r & -> & Hj)%elem_of_lookup_imap & Hin).
  apply list_elem_of_fmap in Hin as (a' & [= -> ->] & Ha). by exists j, r.
Qed.

(** X16. In the [Map] that the generated module builds from the alias
    pairs, an alias carried by several records points to the last of them:
    the position of a record is the value of each of its aliases that no
    later record of the sorted list carries. *)
Theorem alias_map_last_record_wins
    (additional : gmap string (list string)) (cats : list (string * list string))
    (excluded : list string) (data : list Emoji)
    (i : nat) (r : Emoji) (alias : string) :
  let sorted := fullEmojiSorted additional excluded data in
  let pairs := emojiIndicesByAlias (emoji_jsx_index (generate additional cats excluded data)) in
  sorted !! i = Some r → alias ∈ short_names r →
  (∀ j other, i < j → sorted !! j = Some other → alias ∉ short_names other) →
  mapGet (newMap pairs) alias = Some i.
Proof.
  intros sorted pairs Hi Halias Hlater. subst sorted pairs.
  rewrite emoji_jsx_index_generate, (aliasPairs_split _ i r Hi).
  apply list_elem_of_split_r in Halias as (s1 & s2 & Hsplit & Hs2).
  rewrite Hsplit, fmap_app, fmap_cons, <- !app_assoc, app_assoc. simpl.
  apply newMap_last_entry. rewrite fmap_app, elem_of_app.
  intros [Hin | Hin].
  - rewrite <- list_fmap_compose in Hin.
    apply list_elem_of_fmap in Hin as (a & -> & Ha). done.
  - apply aliasPairs_keys in Hin as (j & other & Hj & Hother).
    rewrite lookup_drop in Hj. by apply (Hlater (S i + j) other); [lia|..].
Qed.

Lemma alias_map_last_record_wins_witness :
  mapGet (newMap (emojiIndicesByAlias
                    (emoji_jsx_index
                       (generate sampleShortnames sampleCategories []
                                 [thumbsup; grinning; thumbsup]))))
         "thumbsup"
  = Some 1.
Proof.
  apply (alias_map_last_record_wins sampleShortnames sampleCategories []
           [thumbsup; grinning; thumbsup] 1 thumbsup "thumbsup").
  - vm_compute. reflexivity.
  - right. left.
  - intros j other Hlt Hj.
    assert (fullEmojiSorted sampleShortnames [] [thumbsup; grinning; thumbsup]
            = [thumbsup; thumbsup;
               addShortnames sampleShortnames grinning;
               addShortnames sampleShortnames thumbsupLight;
               addShortnames sampleShortnames
                 (genSkinVariation thumbsup
                    ("1F3FF", sampleVariation "1F44D-1F3FF" "1f44d-1f3ff.png" 1 4));
               addShortnames sampleShortnames thumbsupLight;
               addShortnames sampleShortnames
                 (genSkinVariation thumbsup
                    ("1F3FF", sampleVariation "1F44D-1F3FF" "1f44d-1f3ff.png" 1 4));
               mattermostEmoji]) as Hsorted by (vm_compute; reflexivity).
    rewrite Hsorted in Hj.
    do 2 (destruct j as [|j]; [lia|]).
    repeat (destruct j as [|j];
            [injection Hj as <-; intros Hin%list_elem_of_In; vm_compute in Hin;
             intuition discriminate|]).
    done.
Defined.

(** ** Category labels *)

Lemma forEachIndexed_translation index st l :
  (∀ cat label, mapGet (categoryDefaultTranslation st) cat = Some label →
                convertCategory label = cat) →
  ∀ cat label, mapGet (categoryDefaultTranslation (forEachIndexed index st l)) cat
               = Some label →
               convertCategory label = cat.
Proof.
  revert index st. induction l as [|e l IH]; intros index st Hst; simpl; [done|].
  apply IH. intros cat label. simpl. rewrite mapGet_mapSet.
  destruct (decide (convertCategory (category e) = cat)) as [<-|Hne].
  - by intros [= <-].
  - apply Hst.
Qed.

(** X17. In the script's category label map ([categoryDefaultTranslation]
    after the script's three last [set] calls), [recent], [searchResults]
    and [custom] have their fixed labels, the last replacing the label the
    built-in entry wrote, and every other key is the normalized form of its
    label, which is the category name of a record as the dataset spells
    it. *)
Theorem category_labels_normalize_to_keys
    (additional : gmap string (list string)) (cats : list (string * list string))
    (excluded : list string) (data : list Emoji) :
  let labels := emoji_jsx_categoryDefaultTranslation (generate additional cats excluded data) in
  mapGet labels "recent" = Some "Recently Used"
  ∧ mapGet labels "searchResults" = Some "Search Results"
  ∧ mapGet labels "custom" = Some "Custom"
  ∧ (∀ cat label, mapGet labels cat = Some label →
       cat ≠ "recent" → cat ≠ "searchResults" → cat ≠ "custom" →
       convertCategory label = cat).
Proof.
  intros labels. subst labels. unfold generate. simpl.
  rewrite !mapGet_mapSet. split; [done|]. split; [done|]. split; [done|].
  intros cat label. rewrite !mapGet_mapSet.
  destruct (decide ("custom" = cat)) as [<-|_]; [done|].
  destruct (decide ("searchResults" = cat)) as [<-|_]; [done|].
  destruct (decide ("recent" = cat)) as [<-|_]; [done|].
  intros Hget _ _ _. revert Hget. by apply forEachIndexed_translation.
Qed.

(** ** Maps rebuilt from their entries *)

Section JsMapRebuild.
Context {K V : Type} `{EqDecision K}.
Implicit Types (m : JsMap K V).

Lemma mapSet_new_key m k v : k ∉ m.*1 → mapSet m k v = m ++ [(k, v)].
Proof.
  induction m as [|[k0 v0] m IH]; simpl; [done|].
  intros [Hne Hout]%not_elem_of_cons.
  rewrite decide_False by congruence. by rewrite IH.
Qed.

(** [new Map(Array.from(m))] is [m]. *)
Lemma newMap_entries m : NoDup (m.*1) → newMap m = m.
Proof.
  unfold newMap.
  enough (∀ acc, NoDup ((acc ++ m).*1)
                 → fold_left (λ m kv, mapSet m kv.1 kv.2) m acc = acc ++ m) as Hgen
    by apply (Hgen []).
  induction m as [|[k v] m IH]; intros acc Hnd; simpl.
  - by rewrite app_nil_r.
  - rewrite mapSet_new_key.
    + rewrite IH; rewrite <- app_assoc; done.
    + rewrite fmap_app in Hnd. apply NoDup_app in Hnd as (_ & Hdisj & _).
      intros Hin. apply (Hdisj k Hin). left.
Qed.

Lemma Forall_mapSet (P : K * V → Prop) m k v :
  Forall P m → P (k, v) → Forall P (mapSet m k v).
Proof.
  intros Hm Hkv. induction Hm as [|[k0 v0] m H0 Hm IH]; simpl.
  - by constructor.
  - destruct (decide (k0 = k)) as [->|]; by constructor.
Qed.
End JsMapRebuild.

Lemma forEachIndexed_distinctKeys index st l :
  distinctKeys st → distinctKeys (forEachIndexed index st l).
Proof.
  revert index st. induction l as [|e l IH]; intros index st Hst; simpl; [done|].
  apply IH. destruct Hst as (Hcat & Hno & Hskin & Hinner).
  unfold distinctKeys. simpl. unfold addIndexToMap.
  split; [by apply mapSet_NoDup|].
  destruct (hasSkin e).
  - split; [done|]. split; [by apply mapSet_NoDup|].
    apply Forall_mapSet; [done|]. simpl. apply mapSet_NoDup.
    destruct (mapGet (emojiIndicesByCategoryAndSkin st) (skinOf e)) as [inner|] eqn:Hget.
    + apply mapGet_Some_elem in Hget. rewrite Forall_forall in Hinner.
      by apply (Hinner _ Hget).
    + constructor.
  - split; [by apply mapSet_NoDup|]. done.
Qed.

Lemma rebuild_inner_maps (outer : JsMap string (JsMap string (list nat))) :
  Forall (λ kv, NoDup (kv.2.*1)) outer →
  (λ kv, (kv.1, newMap kv.2)) <$> outer = outer.
Proof.
  intros Hinner. induction Hinner as [|[k inner] m Hk Hm IH]; simpl; [done|].
  simpl in Hk. rewrite (newMap_entries inner Hk). f_equal. exact IH.
Qed.

(** X18. The generated module rebuilds the category index, the no-skin
    index and the skin index, inner maps included, from their entries, and
    gets the maps of the script back: no key occurs twice, so no entry is
    lost or moved. *)
Theorem index_maps_rebuild_from_entries
    (additional : gmap string (list string)) (cats : list (string * list string))
    (excluded : list string) (data : list Emoji) :
  let st := emoji_jsx_index (generate additional cats excluded data) in
  newMap (emojiIndicesByCategory st) = emojiIndicesByCategory st
  ∧ newMap (emojiIndicesByCategoryNoSkin st) = emojiIndicesByCategoryNoSkin st
  ∧ newMap ((λ kv, (kv.1, newMap kv.2)) <$> emojiIndicesByCategoryAndSkin st)
    = emojiIndicesByCategoryAndSkin st.
Proof.
  intros st. subst st. rewrite emoji_jsx_index_generate.
  destruct (forEachIndexed_distinctKeys 0 emptyIndexState
              (fullEmojiSorted additional excluded data))
    as (Hcat & Hno & Hskin & Hinner).
  { unfold distinctKeys. simpl. repeat split; constructor. }
  split; [by apply newMap_entries|]. split; [by apply newMap_entries|].
  etrans; [|by apply newMap_entries]. f_equal. by apply rebuild_inner_maps.
Qed.
